(** * The snarf browser of web-cat-vscode: manifest aggregation and archive install

    A shallow embedding of [src/snarfBrowser.ts].  The file has two parts:
    - [SnarfDataProvider.fetchData] with its helpers [fetchSite] and
      [makeItem], which turn the configured site URLs into a tree of
      [AsyncItem]s (site / category / package);
    - [snarfItem], which downloads one package archive and extracts it into
      the first workspace folder.

    Everything the TypeScript code asks of its surroundings (network, XML
    parser, file system, dialogs, configuration, collation) is a field of
    the record [World]; the code's visible actions are recorded as a list
    of [Event]s, in the order in which the code performs them. *)

From Stdlib Require Import String Ascii List ZArith NArith Bool Lia.
From Stdlib Require Import Sorting.Sorted Structures.OrdersEx Classes.RelationClasses.
From Stdlib Require Import Sorting.Permutation.
From Stdlib Require Strings.Byte.
Import ListNotations.
Open Scope string_scope.
Open Scope list_scope.
Open Scope nat_scope.

(** ** Thrown values, completions and promises *)

(** The values the code throws or sees rejected: [new Error(msg)] (also
    used for failures reported by the collaborators) and the engine's
    [TypeError] for a property read on [undefined] or a call of a
    non-function. *)
Inductive Thrown : Type :=
| Error (message : string)
| TypeError (message : string).

Definition message_of (e : Thrown) : string :=
  match e with
  | Error m => m
  | TypeError m => m
  end.

(** How a synchronous evaluation ends. *)
Inductive Completion (A : Type) : Type :=
| Normal (a : A)
| Throw (e : Thrown).
Arguments Normal {A} a.
Arguments Throw {A} e.

(** The settled state of a promise. *)
Inductive Promise (A : Type) : Type :=
| Fulfilled (a : A)
| Rejected (e : Thrown).
Arguments Fulfilled {A} a.
Arguments Rejected {A} e.

Definition settle {A} (c : Completion A) : Promise A :=
  match c with
  | Normal a => Fulfilled a
  | Throw e => Rejected e
  end.

Definition cbind {A B} (c : Completion A) (k : A -> Completion B) : Completion B :=
  match c with
  | Normal a => k a
  | Throw e => Throw e
  end.

(** [xs.map(f)] where [f] may throw: the first throw ends the map. *)
Fixpoint map_completion {A B} (f : A -> Completion B) (xs : list A) : Completion (list B) :=
  match xs with
  | [] => Normal []
  | x :: xs' => cbind (f x) (fun y => cbind (map_completion f xs') (fun ys => Normal (y :: ys)))
  end.

(** [xs.reduce(f, init)] where [f] may throw. *)
Fixpoint reduce_completion {A B} (f : B -> A -> Completion B) (xs : list A) (acc : B) : Completion B :=
  match xs with
  | [] => Normal acc
  | x :: xs' => cbind (f acc x) (reduce_completion f xs')
  end.

(** ** Data of the source *)

(** [type SnarfSitePackageItem]; [entry_url] is [entry["@_url"]]. *)
Record SnarfSitePackageItem : Type := {
  category : string;     (* "@_category" *)
  name : string;         (* "@_name" *)
  version : string;      (* "@_version" *)
  description : string;
  entry_url : string
}.

(** Modelled from the spec: the class [AsyncItem] of [./asyncTree] is not
    among the sources.  The spec has it as a display node with a label,
    children and, for a package node, the backing package record; here it
    has the fields this file passes to its constructor, a field that a
    call leaves out being [None]. *)
#[warnings="-register-all"]
Inductive AsyncItem : Type :=
| mkAsyncItem (label : string) (tooltip : option string) (descr : option string)
              (iconId : string) (item : option SnarfSitePackageItem)
              (contextValue : option string) (children : option (list AsyncItem)).

Definition label (a : AsyncItem) : string :=
  match a with mkAsyncItem l _ _ _ _ _ _ => l end.
Definition item_of (a : AsyncItem) : option SnarfSitePackageItem :=
  match a with mkAsyncItem _ _ _ _ i _ _ => i end.
Definition children_of (a : AsyncItem) : list AsyncItem :=
  match a with
  | mkAsyncItem _ _ _ _ _ _ (Some c) => c
  | mkAsyncItem _ _ _ _ _ _ None => []
  end.

(** What [xml.snarf_site.package] can be after [parser.parse]: missing,
    one record, or an array of records. *)
Inductive PackageField : Type :=
| PkgUndefined
| PkgOne (x : SnarfSitePackageItem)
| PkgArray (xs : list SnarfSitePackageItem).

Record SnarfSiteElement : Type := {
  site_name : string;            (* xml.snarf_site["@_name"] *)
  package : PackageField         (* xml.snarf_site.package *)
}.

(** The parsed document; [snarf_site] is [None] when the document has no
    such root. *)
Record Xml : Type := { snarf_site : option SnarfSiteElement }.

(** The value [fetchSite] resolves to.  An element of [packages] is [None]
    when the array holds [undefined] there. *)
Record Site : Type := {
  site_label : string;
  packages : list (option SnarfSitePackageItem)
}.

Record Response : Type := {
  ok : bool;
  text : Promise string;
  buffer : Promise (list Byte.byte)
}.

Record WorkspaceFolder : Type := { fsPath : string }.   (* folder.uri.fsPath *)

(** The archive handle returned by [unzip.Open.buffer]. *)
Record CentralDirectory : Type := { files : list string }.

(** ** The surroundings *)

Record World : Type := {
  snarfURLs : option (list string);                 (* getConfig().snarfURLs *)
  fetch : string -> Promise Response;               (* node-fetch *)
  parse : string -> Completion Xml;                 (* fast-xml-parser *)
  localeCompare : string -> string -> Z;            (* String.prototype.localeCompare *)
  settle_rank : nat -> nat;       (* when the i-th promise given to Promise.all settles *)
  workspaceFolders : option (list WorkspaceFolder); (* workspace.workspaceFolders *)
  path_join : string -> string -> string;           (* path.join *)
  existsSync : string -> bool;                      (* fs.existsSync *)
  unzip_Open_buffer : list Byte.byte -> Promise CentralDirectory;
  extract : CentralDirectory -> string -> Promise unit;   (* zip.extract *)
  answer : string -> list string -> option string   (* the button the user picks *)
}.

(** ** Events and the effect monad *)

Inductive Event : Type :=
| EFetch (url : string)                              (* an HTTP GET is issued *)
| EShowInfo (msg : string) (items : list string)     (* window.showInformationMessage *)
| EProgress (viewId title : string)                  (* window.withProgress *)
| ETimer (ms : Z)                                    (* delay(ms) *)
| EExtract (path : string) (concurrency : Z)         (* zip.extract writes under path *)
| EConsoleError (e : Thrown)                         (* console.error *)
| ERejectionDropped (e : Thrown).
  (* a promise rejected with [e] whose value the code threw away without
     awaiting it or attaching a handler *)

(** A computation: the events it performs and how it completes. *)
Definition M (A : Type) : Type := (list Event * Completion A)%type.

Definition ret {A} (a : A) : M A := ([], Normal a).
Definition throw {A} (e : Thrown) : M A := ([], Throw e).
Definition emit (e : Event) : M unit := ([e], Normal tt).
Definition lift {A} (c : Completion A) : M A := ([], c).

Definition bind {A B} (m : M A) (k : A -> M B) : M B :=
  match m with
  | (t, Normal a) => ((t ++ fst (k a))%list, snd (k a))
  | (t, Throw e) => (t, Throw e)
  end.

Declare Scope js_scope.
Delimit Scope js_scope with js.
Notation "x <- m ;; k" := (bind m (fun x => k))
  (at level 61, m at next level, right associativity) : js_scope.
Notation "m ;; k" := (bind m (fun _ => k))
  (at level 61, right associativity) : js_scope.
Open Scope js_scope.

(** [await p]: a rejected promise becomes a throw at the await. *)
Definition await {A} (p : Promise A) : M A :=
  match p with
  | Fulfilled a => ret a
  | Rejected e => throw e
  end.

(** Calling an [async] function never throws: the call yields a promise
    that settles the way the body completes. *)
Definition async {A} (body : M A) : M (Promise A) :=
  (fst body, Normal (settle (snd body))).

(** [try { body } catch (err) { handler }]: only a throw of [body] itself
    reaches the handler. *)
Definition try_catch {A} (body : M A) (handler : Thrown -> M A) : M A :=
  match body with
  | (t, Throw e) => ((t ++ fst (handler e))%list, snd (handler e))
  | (t, Normal a) => (t, Normal a)
  end.

(** An expression statement whose value is a promise: the promise is
    thrown away; a rejection is then nobody's to handle here. *)
Definition discard {A} (p : Promise A) : M unit :=
  match p with
  | Fulfilled _ => ret tt
  | Rejected e => emit (ERejectionDropped e)
  end.

(** [xs.map(f)] for an [f] that performs events and returns normally. *)
Fixpoint map_M {A B} (f : A -> M B) (xs : list A) : M (list B) :=
  match xs with
  | [] => ret []
  | x :: xs' => y <- f x ;; ys <- map_M f xs' ;; ret (y :: ys)
  end.

(** ** Promise.all *)

(** The rejection that settles first: among the rejected promises the one
    of least [rank], the earlier index winning a tie.  [i] is the index of
    the head of [ps]. *)
Fixpoint first_rejection {A} (rank : nat -> nat) (i : nat) (ps : list (Promise A))
         (best : option (nat * Thrown)) : option (nat * Thrown) :=
  match ps with
  | [] => best
  | Fulfilled _ :: ps' => first_rejection rank (S i) ps' best
  | Rejected e :: ps' =>
      first_rejection rank (S i) ps'
        (match best with
         | Some (rb, eb) => if rank i <? rb then Some (rank i, e) else Some (rb, eb)
         | None => Some (rank i, e)
         end)
  end.

Fixpoint fulfilled_values {A} (ps : list (Promise A)) : list A :=
  match ps with
  | [] => []
  | Fulfilled a :: ps' => a :: fulfilled_values ps'
  | Rejected _ :: ps' => fulfilled_values ps'
  end.

(** [Promise.all(ps)]: fulfilled with the values in the order of [ps] when
    every promise fulfils, rejected with the first rejection otherwise. *)
Definition Promise_all {A} (rank : nat -> nat) (ps : list (Promise A)) : Promise (list A) :=
  match first_rejection rank 0 ps None with
  | Some (_, e) => Rejected e
  | None => Fulfilled (fulfilled_values ps)
  end.

(** ** Array.prototype.sort and plain objects used as maps *)

(** [insert_sorted gt x l] puts [x] in front of the first element it is
    not greater than. *)
Fixpoint insert_sorted {A} (gt : A -> A -> bool) (x : A) (l : list A) : list A :=
  match l with
  | [] => [x]
  | y :: l' => if gt x y then y :: insert_sorted gt x l' else x :: l
  end.

(** [arr.sort(cmp)] with [gt a b] standing for [cmp(a, b) > 0]: the stable
    sort the engine performs for a consistent comparator. *)
Definition Array_sort {A} (gt : A -> A -> bool) (l : list A) : list A :=
  fold_right (insert_sorted gt) [] l.

(** The own enumerable string-keyed properties of a plain object, in the
    order of their creation.  Keys are distinct. *)
Definition Obj (V : Type) : Type := list (string * V).

Definition has_own {V} (k : string) (o : Obj V) : bool :=
  existsb (fun kv => (fst kv =? k)%string) o.

Definition is_digit (c : ascii) : bool :=
  (48 <=? nat_of_ascii c) && (nat_of_ascii c <=? 57).

Fixpoint digits_value (s : string) (acc : N) : option N :=
  match s with
  | EmptyString => Some acc
  | String c s' =>
      if is_digit c
      then digits_value s' (10 * acc + N.of_nat (nat_of_ascii c - 48))%N
      else None
  end.

(** A key is an array index when it is the canonical decimal form of an
    integer in 0 .. 2^32 - 2. *)
Definition array_index (k : string) : option N :=
  match k with
  | EmptyString => None
  | String c rest =>
      if Ascii.eqb c "0"%char && negb (rest =? "")%string then None
      else match digits_value k 0 with
           | Some n => if (n <? 4294967295)%N then Some n else None
           | None => None
           end
  end.

Definition index_of_entry {V} (kv : string * V) : N :=
  match array_index (fst kv) with
  | Some n => n
  | None => 0%N
  end.

Definition is_index_entry {V} (kv : string * V) : bool :=
  match array_index (fst kv) with
  | Some _ => true
  | None => false
  end.

(** [Object.entries(o)]: array-index keys in ascending numeric order, then
    the other keys in creation order. *)
Definition Object_entries {V} (o : Obj V) : list (string * V) :=
  (Array_sort (fun a b => (index_of_entry b <? index_of_entry a)%N) (filter is_index_entry o)
   ++ filter (fun kv => negb (is_index_entry kv)) o)%list.

(** ** SnarfDataProvider *)

(** [makeItem(x)].  Reading ["@_name"] of [undefined] is the engine's
    [TypeError]. *)
Definition makeItem (x : option SnarfSitePackageItem) : Completion (string * AsyncItem) :=
  match x with
  | None => Throw (TypeError "Cannot read properties of undefined (reading '@_name')")
  | Some p =>
      Normal (category p,
              mkAsyncItem (name p) (Some (description p)) (Some (version p))
                          "package" (Some p) (Some "project") None)
  end.

(** The error of line 33. *)
Definition snarf_failure (url : string) : Thrown :=
  Error ("Failed to snarf " ++ url ++ ". Check the URL and your internet connection.")%string.

(** Line 40: [Array.isArray(p) ? p : [p]]. *)
Definition package_array (p : PackageField) : list (option SnarfSitePackageItem) :=
  match p with
  | PkgArray xs => map Some xs
  | PkgOne x => [Some x]
  | PkgUndefined => [None]
  end.

(** [fetchSite(url)]. *)
Definition fetchSite (w : World) (url : string) : M (Promise Site) :=
  async (
    emit (EFetch url) ;;
    resp <- await (fetch w url) ;;
    if negb (ok resp) then throw (snarf_failure url)
    else
      content <- await (text resp) ;;
      xml <- lift (parse w content) ;;
      root <- lift (match snarf_site xml with
                    | Some r => Normal r
                    | None => Throw (TypeError "Cannot read properties of undefined (reading '@_name')")
                    end) ;;
      ret {| site_label := site_name root; packages := package_array (package root) |}).

(** [acc[category].push(item)] on the own property [category]. *)
Fixpoint push_at (k : string) (it : AsyncItem) (o : Obj (list AsyncItem)) : Obj (list AsyncItem) :=
  match o with
  | [] => []
  | (k', v) :: o' =>
      if (k' =? k)%string then (k', v ++ [it]) :: o' else (k', v) :: push_at k it o'
  end.

(** The callback of [reduce] (lines 51-55) on the plain object [acc]:
    - once a category named [hasOwnProperty] has become an own property,
      [acc.hasOwnProperty] is that array and the call faults;
    - the key [__proto__] is the inherited accessor: the assignment
      replaces the prototype by a fresh array, the push goes to that array,
      and no own property appears;
    - any other key is created when missing and pushed to. *)
Definition group_step (acc : Obj (list AsyncItem)) (p : string * AsyncItem)
  : Completion (Obj (list AsyncItem)) :=
  if has_own "hasOwnProperty" acc
  then Throw (TypeError "acc.hasOwnProperty is not a function")
  else if (fst p =? "__proto__")%string then Normal acc
  else Normal (push_at (fst p) (snd p)
                 (if has_own (fst p) acc then acc else acc ++ [(fst p, [])])).

(** Lines 57-63: one folder node per entry, its children sorted by
    [a.label.localeCompare(b.label)]. *)
Definition category_node (w : World) (e : string * list AsyncItem) : AsyncItem :=
  mkAsyncItem (fst e) None None "folder" None None
    (Some (Array_sort (fun a b => (0 <? localeCompare w (label a) (label b))%Z) (snd e))).

(** The callback of [sites.map] (lines 50-66). *)
Definition site_node (w : World) (s : Site) : Completion AsyncItem :=
  cbind (map_completion makeItem (packages s)) (fun pairs =>
  cbind (reduce_completion group_step pairs []) (fun items =>
  Normal (mkAsyncItem (site_label s) None None "project" None None
            (Some (map (category_node w) (Object_entries items)))))).

(** [fetchData()].  [None] is the [undefined] of the bare [return]. *)
Definition fetchData (w : World) : M (Promise (option (list AsyncItem))) :=
  async (
    match snarfURLs w with
    | None => ret None
    | Some urls =>
        ps <- map_M (fetchSite w) urls ;;
        sites <- await (Promise_all (settle_rank w) ps) ;;
        nodes <- lift (map_completion (site_node w) sites) ;;
        ret (Some nodes)
    end).

(** ** snarfItem *)

(** Modelled from the spec: [delay] of [./utils], which is not among the
    sources; the spec has it as the minimum visible-progress delay, a timer
    that only gates the progress display and never fails. *)
Definition delay (ms : Z) : M (Promise unit) :=
  emit (ETimer ms) ;; ret (Fulfilled tt).

(** [window.showInformationMessage(msg, ...items)]: resolves to the button
    picked, or to [undefined] ([None]) when the message is dismissed. *)
Definition showInformationMessage (w : World) (msg : string) (items : list string)
  : M (Promise (option string)) :=
  emit (EShowInfo msg items) ;; ret (Fulfilled (answer w msg items)).

(** [window.withProgress(options, task)]: runs [task] and hands back a
    thenable that settles as the task's promise does. *)
Definition withProgress {A} (viewId title : string) (task : unit -> M (Promise A))
  : M (Promise A) :=
  emit (EProgress viewId title) ;; task tt.

(** Line 88: [workspace.workspaceFolders?.[0].uri.fsPath].  The optional
    chain stops only at an [undefined] folder list; on an empty list
    [[0]] is [undefined] and reading [uri] of it faults. *)
Definition workspace_dir (w : World) : Completion (option string) :=
  match workspaceFolders w with
  | None => Normal None
  | Some [] => Throw (TypeError "Cannot read properties of undefined (reading 'uri')")
  | Some (f :: _) => Normal (Some (fsPath f))
  end.

(** [!dir]: [undefined] and the empty string are falsy. *)
Definition falsy (dir : option string) : bool :=
  match dir with
  | None => true
  | Some d => (d =? "")%string
  end.

Definition overwrite_question : string := "Directory already exists. Overwrite?".
Definition success_message (p : SnarfSitePackageItem) : string :=
  ("Succesfully snarfed " ++ name p ++ ".")%string.
Definition error_message (err : Thrown) : string :=
  ("An error occurred: " ++ message_of err)%string.

(** [ans === "Yes"]. *)
Definition is_Yes (ans : option string) : bool :=
  match ans with
  | Some a => (a =? "Yes")%string
  | None => false
  end.

(** Lines 103-104. *)
Definition extract_and_report (w : World) (zip : CentralDirectory) (unzipPath : string)
           (p : SnarfSitePackageItem) : M unit :=
  emit (EExtract unzipPath 5) ;;
  await (extract w zip unzipPath) ;;
  _ <- showInformationMessage w (success_message p) [] ;;
  ret tt.

(** [downloadItem()] (lines 91-105), closed over [dir] and [pack].  [pack]
    is [item.item], which only package nodes carry. *)
Definition downloadItem (w : World) (dir : string) (pack : option SnarfSitePackageItem)
  : M (Promise unit) :=
  async (
    p <- lift (match pack with
               | Some p => Normal p
               | None => Throw (TypeError "Cannot read properties of undefined (reading 'entry')")
               end) ;;
    emit (EFetch (entry_url p)) ;;
    resp <- await (fetch w (entry_url p)) ;;
    zipfile <- await (buffer resp) ;;
    zip <- await (unzip_Open_buffer w zipfile) ;;
    let unzipPath := path_join w dir (name p) in
    if existsSync w unzipPath then
      pa <- showInformationMessage w overwrite_question ["Yes"; "No"] ;;
      ans <- await pa ;;
      if is_Yes ans then extract_and_report w zip unzipPath p else ret tt
    else extract_and_report w zip unzipPath p).

(** [snarfItem(item)] (lines 85-115).  The function is not [async] and the
    [try] block does not await: the block ends when [withProgress] has
    returned its thenable, which the statement throws away. *)
Definition snarfItem (w : World) (item : AsyncItem) : M unit :=
  let pack := item_of item in
  dir <- lift (workspace_dir w) ;;
  if falsy dir then
    _ <- showInformationMessage w "Please open a folder first." [] ;; ret tt
  else
    let d := match dir with Some d => d | None => "" end in
    try_catch
      (p <- withProgress "snarferBrowser" "Snarfing..." (fun _ =>
              pd <- delay 1000 ;;
              pi <- downloadItem w d pack ;;
              ret (Promise_all (settle_rank w) [pd; pi])) ;;
       discard p)
      (fun err =>
         _ <- showInformationMessage w (error_message err) [] ;;
         emit (EConsoleError err)).

(** ** Vocabulary of the statements *)

(** The promise a call of an [async] function hands back. *)
Definition promise_of {A} (m : M (Promise A)) : Promise A :=
  match snd m with
  | Normal p => p
  | Throw e => Rejected e
  end.

(** The promise of [fetchSite(url)]. *)
Definition site_promise (w : World) (url : string) : Promise Site :=
  promise_of (fetchSite w url).

(** The site nodes a load hands to the tree: none for [undefined]. *)
Definition site_nodes (r : option (list AsyncItem)) : list AsyncItem :=
  match r with
  | Some nodes => nodes
  | None => []
  end.

(** A site record whose packages are all present and none of which lies in
    a category called [hasOwnProperty]: grouping such a site cannot fault. *)
Definition groupable (s : Site) : bool :=
  forallb (fun x => match x with
                    | Some p => negb (category p =? "hasOwnProperty")%string
                    | None => false
                    end) (packages s).

(** What a package node says about the record it was made from. *)
Definition made_for (k : string) (it : AsyncItem) : Prop :=
  exists p, item_of it = Some p /\ category p = k /\ label it = name p.

(** Every own property of the accumulator holds only nodes of packages of
    that category. *)
Definition well_grouped (acc : Obj (list AsyncItem)) : Prop :=
  forall k v it, In (k, v) acc -> In it v -> made_for k it.

Definition is_fetch (e : Event) : bool :=
  match e with EFetch _ => true | _ => false end.
Definition is_fs_write (e : Event) : bool :=
  match e with EExtract _ _ => true | _ => false end.
Definition is_prompt (e : Event) : bool :=
  match e with EShowInfo m _ => (m =? overwrite_question)%string | _ => false end.
Definition is_success_report (e : Event) : bool :=
  match e with EShowInfo m _ => prefix "Succesfully snarfed " m | _ => false end.
Definition is_error_report (e : Event) : bool :=
  match e with EShowInfo m _ => prefix "An error occurred: " m | _ => false end.
Definition is_info (e : Event) : bool :=
  match e with EShowInfo _ _ => true | _ => false end.


(** The same surroundings with another parser. *)
Definition with_parse (w : World) (f : string -> Completion Xml) : World :=
  {| snarfURLs := snarfURLs w; fetch := fetch w; parse := f;
     localeCompare := localeCompare w; settle_rank := settle_rank w;
     workspaceFolders := workspaceFolders w; path_join := path_join w;
     existsSync := existsSync w; unzip_Open_buffer := unzip_Open_buffer w;
     extract := extract w; answer := answer w |}.

(** A document in which a lone package record has been put into a
    one-element array. *)
Definition as_list (p : PackageField) : PackageField :=
  match p with
  | PkgOne x => PkgArray [x]
  | _ => p
  end.

Definition listed (x : Xml) : Xml :=
  {| snarf_site :=
       match snarf_site x with
       | Some r => Some {| site_name := site_name r; package := as_list (package r) |}
       | None => None
       end |}.

Definition parse_listed (w : World) (body : string) : Completion Xml :=
  match parse w body with
  | Normal x => Normal (listed x)
  | Throw e => Throw e
  end.

(** A comparator by code points, standing in for [localeCompare] where a
    concrete one is needed. *)
Definition codepoint_compare (a b : string) : Z :=
  match String_as_OT.compare a b with
  | Lt => (-1)%Z
  | Eq => 0%Z
  | Gt => 1%Z
  end.

(** ** Sample surroundings *)

Definition sample_package (c n : string) : SnarfSitePackageItem :=
  {| category := c; name := n; version := "1.0"; description := "";
     entry_url := ("https://example.org/" ++ n ++ ".zip")%string |}.

Definition sample_node (c n : string) : AsyncItem :=
  mkAsyncItem n (Some "") (Some "1.0") "package" (Some (sample_package c n))
              (Some "project") None.

(** Everything succeeds; the manifest at [one] has a lone package, the one
    at [none] has no package, any other has three. *)
Definition sample_world : World :=
  {| snarfURLs := Some ["many"; "one"];
     fetch := fun u => Fulfilled {| ok := negb (u =? "missing")%string;
                                    text := Fulfilled u; buffer := Fulfilled [] |};
     parse := fun body =>
       Normal {| snarf_site := Some
         {| site_name := body;
            package := if (body =? "one")%string then PkgOne (sample_package "labs" "Lab1")
                       else if (body =? "none")%string then PkgUndefined
                       else PkgArray [sample_package "labs" "cherry";
                                      sample_package "hw" "HW1";
                                      sample_package "labs" "Banana"] |} |};
     localeCompare := codepoint_compare;
     settle_rank := fun i => i;
     workspaceFolders := Some [{| fsPath := "/home/me/ws" |}];
     path_join := fun a b => (a ++ "/" ++ b)%string;
     existsSync := fun _ => true;
     unzip_Open_buffer := fun _ => Fulfilled {| files := [] |};
     extract := fun _ _ => Fulfilled tt;
     answer := fun _ _ => Some "Yes" |}.

Definition with_urls (w : World) (urls : option (list string)) : World :=
  {| snarfURLs := urls; fetch := fetch w; parse := parse w;
     localeCompare := localeCompare w; settle_rank := settle_rank w;
     workspaceFolders := workspaceFolders w; path_join := path_join w;
     existsSync := existsSync w; unzip_Open_buffer := unzip_Open_buffer w;
     extract := extract w; answer := answer w |}.

Definition with_folders (w : World) (fs : option (list WorkspaceFolder)) : World :=
  {| snarfURLs := snarfURLs w; fetch := fetch w; parse := parse w;
     localeCompare := localeCompare w; settle_rank := settle_rank w;
     workspaceFolders := fs; path_join := path_join w;
     existsSync := existsSync w; unzip_Open_buffer := unzip_Open_buffer w;
     extract := extract w; answer := answer w |}.

Definition with_answer (w : World) (a : option string) : World :=
  {| snarfURLs := snarfURLs w; fetch := fetch w; parse := parse w;
     localeCompare := localeCompare w; settle_rank := settle_rank w;
     workspaceFolders := workspaceFolders w; path_join := path_join w;
     existsSync := existsSync w; unzip_Open_buffer := unzip_Open_buffer w;
     extract := extract w; answer := fun _ _ => a |}.

(** A load whose only manifest has no package element. *)
Definition empty_manifest_world : World := with_urls sample_world (Some ["none"]).

(** The archive bytes are corrupt: [unzip.Open.buffer] rejects. *)
Definition corrupt_world : World :=
  {| snarfURLs := snarfURLs sample_world; fetch := fetch sample_world;
     parse := parse sample_world; localeCompare := codepoint_compare;
     settle_rank := fun i => i;
     workspaceFolders := workspaceFolders sample_world;
     path_join := path_join sample_world; existsSync := fun _ => false;
     unzip_Open_buffer := fun _ => Rejected (Error "FILE_ENDED");
     extract := fun _ _ => Fulfilled tt; answer := fun _ _ => None |}.

(** ** Further vocabulary *)

(** The same surroundings with the promises settling in another order. *)
Definition with_rank (w : World) (r : nat -> nat) : World :=
  {| snarfURLs := snarfURLs w; fetch := fetch w; parse := parse w;
     localeCompare := localeCompare w; settle_rank := r;
     workspaceFolders := workspaceFolders w; path_join := path_join w;
     existsSync := existsSync w; unzip_Open_buffer := unzip_Open_buffer w;
     extract := extract w; answer := answer w |}.

(** The node [makeItem] builds for a package record. *)
Definition package_node (p : SnarfSitePackageItem) : AsyncItem :=
  mkAsyncItem (name p) (Some (description p)) (Some (version p))
              "package" (Some p) (Some "project") None.

(** The keys of a list without their repetitions, each at the place of
    its first occurrence. *)
Fixpoint first_seen (ks : list string) : list string :=
  match ks with
  | [] => []
  | k :: ks' => k :: filter (fun k' => negb (k' =? k)%string) (first_seen ks')
  end.

(** The number an array-index key stands for. *)
Definition key_index (k : string) : N :=
  match array_index k with
  | Some n => n
  | None => 0%N
  end.

Definition is_index_key (k : string) : bool :=
  match array_index k with
  | Some _ => true
  | None => false
  end.

Definition not_proto (p : SnarfSitePackageItem) : bool :=
  negb (category p =? "__proto__")%string.

(** ** Lifecycle hooks *)

(** The context keys of the host, as [commands.executeCommand("setContext",
    key, value)] sets them. *)
Definition ContextKeys : Type := string -> option bool.

Definition setContext (k : string) (v : bool) (c : ContextKeys) : ContextKeys :=
  fun k' => if (k' =? k)%string then Some v else c k'.

(** [beforeLoad()] (lines 69-72). *)
Definition beforeLoad (c : ContextKeys) : ContextKeys :=
  setContext "web-CAT.snarfsLoaded" false (setContext "web-CAT.snarfsErrored" false c).

(** [afterLoad()] (lines 74-77). *)
Definition afterLoad (c : ContextKeys) : ContextKeys :=
  setContext "web-CAT.snarfsLoaded" true (setContext "web-CAT.snarfsErrored" false c).

(** [onLoadError(e)] (lines 79-82).  [super_onLoadError] is the handler of
    the base class [AsyncTreeDataProvider], which is not among the
    sources; it runs first. *)
Definition onLoadError (super_onLoadError : Thrown -> ContextKeys -> ContextKeys)
           (e : Thrown) (c : ContextKeys) : ContextKeys :=
  setContext "web-CAT.snarfsErrored" true (super_onLoadError e c).

(** The site at [down] cannot be reached. *)
Definition offline_world : World :=
  {| snarfURLs := Some ["many"; "down"];
     fetch := fun u => if (u =? "down")%string then Rejected (Error "ECONNREFUSED")
                       else fetch sample_world u;
     parse := parse sample_world; localeCompare := codepoint_compare;
     settle_rank := fun i => i;
     workspaceFolders := workspaceFolders sample_world;
     path_join := path_join sample_world; existsSync := fun _ => false;
     unzip_Open_buffer := unzip_Open_buffer sample_world;
     extract := extract sample_world; answer := fun _ _ => None |}.

(** A site whose packages lie in the categories given, in that order. *)
Definition site_with_categories (cats : list string) : Site :=
  {| site_label := "s";
     packages := map (fun c => Some (sample_package c c)) cats |}.

(** What the accumulator looks like after the pairs [done]:
    its keys are distinct, [__proto__] is not among them, no key holds an
    empty array, every key is the category of a pair, and its arrays hold
    the nodes of the pairs outside [__proto__], each once. *)
Definition grouped (done : list (string * AsyncItem)) (acc : Obj (list AsyncItem)) : Prop :=
  NoDup (map fst acc) /\
  has_own "__proto__" acc = false /\
  Forall (fun kv => snd kv <> []) acc /\
  (forall k, In k (map fst acc) <-> (In k (map fst done) /\ k <> "__proto__")) /\
  Permutation (concat (map snd acc))
              (map snd (filter (fun pr => negb (fst pr =? "__proto__")%string) done)).

(** A category is plain when it is not an array index and is neither of
    the two keys the accumulator treats specially. *)
Definition plain_category (p : SnarfSitePackageItem) : bool :=
  negb (is_index_key (category p))
  && negb (category p =? "__proto__")%string
  && negb (category p =? "hasOwnProperty")%string.

(** The load of one site whose manifest names the category
    [hasOwnProperty] before another package. *)
Definition shadowing_world : World :=
  {| snarfURLs := Some ["shadow"];
     fetch := fetch sample_world;
     parse := fun body =>
       Normal {| snarf_site := Some
         {| site_name := body;
            package := PkgArray [sample_package "labs" "Lab1";
                                 sample_package "hasOwnProperty" "Lab2";
                                 sample_package "labs" "Lab3"] |} |};
     localeCompare := codepoint_compare; settle_rank := fun i => i;
     workspaceFolders := workspaceFolders sample_world;
     path_join := path_join sample_world; existsSync := fun _ => false;
     unzip_Open_buffer := unzip_Open_buffer sample_world;
     extract := extract sample_world; answer := fun _ _ => None |}.

(** Nothing is at the destination yet. *)
Definition fresh_world : World :=
  {| snarfURLs := snarfURLs sample_world; fetch := fetch sample_world;
     parse := parse sample_world; localeCompare := codepoint_compare;
     settle_rank := fun i => i;
     workspaceFolders := Some [{| fsPath := "/home/me/ws" |}; {| fsPath := "/home/me/other" |}];
     path_join := path_join sample_world; existsSync := fun _ => false;
     unzip_Open_buffer := unzip_Open_buffer sample_world;
     extract := extract sample_world; answer := fun _ _ => None |}.

(** The site of the sample manifest [many]. *)
Definition many_site : Site :=
  {| site_label := "many";
     packages := [Some (sample_package "labs" "cherry");
                  Some (sample_package "hw" "HW1");
                  Some (sample_package "labs" "Banana")] |}.



(** * Properties *)

(** ** Promise.all *)

Section PromiseAll.
Context {A : Type}.
Variable rank : nat -> nat.

Lemma first_rejection_none (ps : list (Promise A)) :
  forall i best,
    first_rejection rank i ps best = None ->
    best = None /\ ps = map Fulfilled (fulfilled_values ps).
Proof.
  induction ps as [|p ps IH]; intros i best H; simpl in *.
  - auto.
  - destruct p as [a|e].
    + destruct (IH _ _ H) as [Hb Hps]. split; [exact Hb|].
      simpl. now rewrite <- Hps.
    + apply IH in H. destruct H as [Hb _].
      destruct best as [[rb eb]|]; [destruct (rank i <? rb)|]; discriminate.
Qed.

Lemma first_rejection_some (ps : list (Promise A)) :
  forall i best r e,
    first_rejection rank i ps best = Some (r, e) ->
    best = Some (r, e) \/ In (Rejected e) ps.
Proof.
  induction ps as [|p ps IH]; intros i best r e H; simpl in *.
  - now left.
  - destruct p as [a|e'].
    + destruct (IH _ _ _ _ H); auto.
    + destruct (IH _ _ _ _ H) as [Hb|Hin]; [|auto].
      destruct best as [[rb eb]|].
      * destruct (rank i <? rb); inversion Hb; subst; auto.
      * inversion Hb; subst; auto.
Qed.

Lemma first_rejection_of_fulfilled (vs : list A) :
  forall i best, first_rejection rank i (map Fulfilled vs) best = best.
Proof.
  induction vs as [|v vs IH]; intros i best; simpl; auto.
Qed.

Lemma fulfilled_values_map (vs : list A) :
  fulfilled_values (map Fulfilled vs) = vs.
Proof.
  induction vs as [|v vs IH]; simpl; congruence.
Qed.

(** When every promise fulfils, the values come back in the given order. *)
Lemma Promise_all_fulfilled (vs : list A) :
  Promise_all rank (map Fulfilled vs) = Fulfilled vs.
Proof.
  unfold Promise_all.
  now rewrite first_rejection_of_fulfilled, fulfilled_values_map.
Qed.

Lemma Promise_all_fulfilled_inv (ps : list (Promise A)) (vs : list A) :
  Promise_all rank ps = Fulfilled vs -> ps = map Fulfilled vs.
Proof.
  unfold Promise_all.
  destruct (first_rejection rank 0 ps None) as [[r e]|] eqn:E; [discriminate|].
  intros H. inversion H; subst.
  now apply first_rejection_none in E.
Qed.

(** One rejection is enough to reject the whole, with the reason of one
    of the rejected promises. *)
Lemma Promise_all_rejected (ps : list (Promise A)) (e0 : Thrown) :
  In (Rejected e0) ps ->
  exists e, Promise_all rank ps = Rejected e /\ In (Rejected e) ps.
Proof.
  intros Hin. unfold Promise_all.
  destruct (first_rejection rank 0 ps None) as [[r e]|] eqn:E.
  - exists e. split; [reflexivity|].
    destruct (first_rejection_some _ _ _ _ _ E) as [Hb|H]; [discriminate|exact H].
  - apply first_rejection_none in E. destruct E as [_ E].
    rewrite E in Hin. apply in_map_iff in Hin.
    destruct Hin as [v [Hv _]]. discriminate.
Qed.
End PromiseAll.

(** ** Computations *)

Lemma map_M_shape {A B} (f : A -> M B) (tr : A -> list Event) (g : A -> B) :
  (forall x, f x = (tr x, Normal (g x))) ->
  forall xs, map_M f xs = (flat_map tr xs, Normal (map g xs)).
Proof.
  intros Hf xs. induction xs as [|x xs IH]; simpl.
  - reflexivity.
  - rewrite Hf, IH. unfold bind, ret. simpl. now rewrite app_nil_r.
Qed.

(** A map whose callback returns on every element returns, element by
    element. *)
Lemma map_completion_normal {A B} (f : A -> Completion B) (xs : list A) :
  (forall x, In x xs -> exists y, f x = Normal y) ->
  exists ys, map_completion f xs = Normal ys /\
             Forall2 (fun x y => f x = Normal y) xs ys.
Proof.
  induction xs as [|x xs IH]; intros H; simpl.
  - exists []. split; [reflexivity|constructor].
  - destruct (H x (or_introl eq_refl)) as [y Hy].
    destruct IH as [ys [Hys HF]]; [intros; apply H; now right|].
    exists (y :: ys). rewrite Hy, Hys. simpl. split; [reflexivity|].
    now constructor.
Qed.

Lemma map_completion_inv {A B} (f : A -> Completion B) (xs : list A) (ys : list B) :
  map_completion f xs = Normal ys -> Forall2 (fun x y => f x = Normal y) xs ys.
Proof.
  revert ys. induction xs as [|x xs IH]; intros ys H; simpl in H.
  - inversion H. constructor.
  - destruct (f x) as [y|e] eqn:Ey; simpl in H; [|discriminate].
    destruct (map_completion f xs) as [ys'|e] eqn:E; simpl in H; [|discriminate].
    inversion H; subst. constructor; auto.
Qed.

(** A map whose callback throws on some element throws. *)
Lemma map_completion_throws {A B} (f : A -> Completion B) (xs : list A) (x : A) (e : Thrown) :
  In x xs -> f x = Throw e -> exists e', map_completion f xs = Throw e'.
Proof.
  intros Hin Hx. induction xs as [|x' xs IH]; [contradiction|].
  simpl. destruct Hin as [->|Hin].
  - rewrite Hx. simpl. now exists e.
  - destruct (f x') as [y|e1]; simpl; [|now exists e1].
    destruct (IH Hin) as [e' ->]. simpl. now exists e'.
Qed.

Lemma Forall2_nth_error {A B} (R : A -> B -> Prop) (xs : list A) (ys : list B) :
  Forall2 R xs ys ->
  forall i x, nth_error xs i = Some x ->
              exists y, nth_error ys i = Some y /\ R x y.
Proof.
  induction 1 as [|x0 y0 xs ys HR HF IH]; intros i x Hi.
  - destruct i; discriminate.
  - destruct i as [|i]; simpl in *.
    + inversion Hi; subst. eauto.
    + eauto.
Qed.

(** ** fetchSite and fetchData, unfolded *)

Lemma site_promise_eq (w : World) (u : string) :
  site_promise w u =
  match fetch w u with
  | Rejected e => Rejected e
  | Fulfilled resp =>
      if ok resp then
        match text resp with
        | Rejected e => Rejected e
        | Fulfilled body =>
            match parse w body with
            | Throw e => Rejected e
            | Normal xml =>
                match snarf_site xml with
                | None => Rejected (TypeError "Cannot read properties of undefined (reading '@_name')")
                | Some root => Fulfilled {| site_label := site_name root;
                                            packages := package_array (package root) |}
                end
            end
        end
      else Rejected (snarf_failure u)
  end.
Proof.
  unfold site_promise, promise_of, fetchSite, async. simpl.
  destruct (fetch w u) as [resp|e]; simpl; [|reflexivity].
  destruct (ok resp); simpl; [|reflexivity].
  destruct (text resp) as [body|e]; simpl; [|reflexivity].
  destruct (parse w body) as [xml|e]; simpl; [|reflexivity].
  destruct (snarf_site xml); reflexivity.
Qed.

(** A call of [fetchSite] issues its request and returns a promise. *)
Lemma fetchSite_eq (w : World) (u : string) :
  fetchSite w u = ([EFetch u], Normal (site_promise w u)).
Proof.
  unfold site_promise, promise_of, fetchSite, async. simpl. f_equal.
  destruct (fetch w u) as [resp|e]; simpl; [|reflexivity].
  destruct (ok resp); simpl; [|reflexivity].
  destruct (text resp) as [body|e]; simpl; [|reflexivity].
  destruct (parse w body) as [xml|e]; simpl; [|reflexivity].
  destruct (snarf_site xml); reflexivity.
Qed.

Lemma flat_map_singleton {A B} (f : A -> B) (xs : list A) :
  flat_map (fun x => [f x]) xs = map f xs.
Proof.
  induction xs as [|x xs IH]; simpl; congruence.
Qed.

(** With a URL list configured, the load issues one request per URL, in
    order, and settles as [Promise.all] and the node construction do. *)
Lemma fetchData_eq (w : World) (urls : list string) :
  snarfURLs w = Some urls ->
  fetchData w =
  (map EFetch urls,
   Normal match Promise_all (settle_rank w) (map (site_promise w) urls) with
          | Rejected e => Rejected e
          | Fulfilled sites =>
              match map_completion (site_node w) sites with
              | Normal nodes => Fulfilled (Some nodes)
              | Throw e => Rejected e
              end
          end).
Proof.
  intros H. unfold fetchData, async. rewrite H.
  rewrite (map_M_shape (fetchSite w) (fun u => [EFetch u]) (site_promise w) (fetchSite_eq w)).
  rewrite flat_map_singleton. unfold bind at 1. simpl fst. simpl snd.
  destruct (Promise_all (settle_rank w) (map (site_promise w) urls)) as [sites|e]; simpl.
  - destruct (map_completion (site_node w) sites); simpl; now rewrite app_nil_r.
  - now rewrite app_nil_r.
Qed.

(** ** Grouping *)

Lemma has_own_app {V} (k : string) (o1 o2 : Obj V) :
  has_own k (o1 ++ o2) = has_own k o1 || has_own k o2.
Proof.
  unfold has_own. apply existsb_app.
Qed.

Lemma has_own_push_at (k k' : string) (it : AsyncItem) (o : Obj (list AsyncItem)) :
  has_own k (push_at k' it o) = has_own k o.
Proof.
  induction o as [|[k0 v] o IH]; simpl; [reflexivity|].
  destruct (k0 =? k')%string; simpl; [reflexivity|].
  now rewrite IH.
Qed.

(** Packages outside the category [hasOwnProperty] are grouped without a
    fault. *)
Lemma reduce_group_step_normal (pairs : list (string * AsyncItem)) :
  Forall (fun p => fst p <> "hasOwnProperty") pairs ->
  forall acc, has_own "hasOwnProperty" acc = false ->
              exists items, reduce_completion group_step pairs acc = Normal items.
Proof.
  induction 1 as [|p pairs Hp HF IH]; intros acc Hacc; simpl.
  - now exists acc.
  - unfold group_step at 1. rewrite Hacc.
    destruct (fst p =? "__proto__")%string; simpl.
    + now apply IH.
    + apply IH. rewrite has_own_push_at.
      destruct (has_own (fst p) acc); [exact Hacc|].
      rewrite has_own_app, Hacc. simpl.
      apply String.eqb_neq in Hp. now rewrite Hp.
Qed.

Lemma makeItem_groupable (xs : list (option SnarfSitePackageItem)) :
  forallb (fun x => match x with
                    | Some p => negb (category p =? "hasOwnProperty")%string
                    | None => false
                    end) xs = true ->
  exists pairs, map_completion makeItem xs = Normal pairs /\
                Forall (fun p => fst p <> "hasOwnProperty") pairs.
Proof.
  induction xs as [|x xs IH]; simpl; intros H.
  - exists []. split; [reflexivity|constructor].
  - apply andb_true_iff in H. destruct H as [Hx Hxs].
    destruct x as [p|]; [|discriminate].
    destruct (IH Hxs) as [pairs [E HF]].
    rewrite E. simpl. eexists. split; [reflexivity|].
    constructor; [|exact HF]. simpl.
    apply negb_true_iff in Hx. now apply String.eqb_neq.
Qed.

(** A groupable site becomes a site node carrying the site's name. *)
Lemma site_node_groupable (w : World) (s : Site) :
  groupable s = true ->
  exists n, site_node w s = Normal n /\ label n = site_label s.
Proof.
  intros H. unfold site_node.
  destruct (makeItem_groupable _ H) as [pairs [E HF]]. rewrite E. simpl.
  destruct (reduce_group_step_normal pairs HF [] eq_refl) as [items ->]. simpl.
  eexists. split; reflexivity.
Qed.

(** ** The load *)

(** C9.  When the configured URL list is absent or empty the load issues
    no request, raises nothing and hands no site node to the tree: it
    fulfils with [undefined] for an absent list and with the empty list of
    nodes for an empty one. *)
Theorem fetchData_without_urls (w : World) :
  snarfURLs w = None \/ snarfURLs w = Some [] ->
  fst (fetchData w) = [] /\
  exists r, snd (fetchData w) = Normal (Fulfilled r) /\
            site_nodes r = [] /\
            (snarfURLs w = None -> r = None) /\
            (snarfURLs w = Some [] -> r = Some []).
Proof.
  intros [H|H]; unfold fetchData, async; rewrite H; simpl.
  - split; [reflexivity|]. exists None. repeat split; auto; discriminate.
  - split; [reflexivity|]. exists (Some []). repeat split; auto; discriminate.
Qed.

Lemma fetchData_without_urls_witness :
  fst (fetchData (with_urls sample_world (Some []))) = [] /\
  exists r, snd (fetchData (with_urls sample_world (Some []))) = Normal (Fulfilled r) /\
            site_nodes r = [] /\
            (snarfURLs (with_urls sample_world (Some [])) = None -> r = None) /\
            (snarfURLs (with_urls sample_world (Some [])) = Some [] -> r = Some []).
Proof.
  apply (fetchData_without_urls (with_urls sample_world (Some []))).
  right. reflexivity.
Defined.




Lemma sites_of_urls (w : World) (P : Site -> Prop) (urls : list string) :
  (forall u, In u urls -> exists s, site_promise w u = Fulfilled s /\ P s) ->
  exists sites, map (site_promise w) urls = map Fulfilled sites /\
                Forall2 (fun u s => site_promise w u = Fulfilled s) urls sites /\
                Forall P sites.
Proof.
  induction urls as [|u urls IH]; intros H.
  - exists []. repeat split; constructor.
  - destruct (H u (or_introl eq_refl)) as [s [Hs HP]].
    destruct IH as [sites [E [HF HA]]]; [intros; apply H; now right|].
    exists (s :: sites). simpl. rewrite Hs, E.
    repeat split; constructor; auto.
Qed.

(** C3, as amended.  When every configured site is fetched and parsed into
    a site record whose packages are all package records, none of them in
    a category called [hasOwnProperty], the load fulfils with exactly one
    node per URL, and the i-th node is the one built from the site fetched
    from the i-th URL. *)
Theorem fetchData_sites_in_order (w : World) (urls : list string) :
  snarfURLs w = Some urls ->
  (forall u, In u urls -> exists s, site_promise w u = Fulfilled s /\ groupable s = true) ->
  exists nodes,
    snd (fetchData w) = Normal (Fulfilled (Some nodes)) /\
    length nodes = length urls /\
    forall i u, nth_error urls i = Some u ->
      exists s n, site_promise w u = Fulfilled s /\
                  nth_error nodes i = Some n /\
                  site_node w s = Normal n /\
                  label n = site_label s.
Proof.
  intros Hcfg Hall.
  destruct (sites_of_urls w _ urls Hall) as [sites [E [HF HG]]].
  destruct (map_completion_normal (site_node w) sites) as [nodes [En HN]].
  { intros s Hs. rewrite Forall_forall in HG.
    destruct (site_node_groupable w s (HG s Hs)) as [n [Hn _]]. eauto. }
  exists nodes. rewrite (fetchData_eq w urls Hcfg). simpl.
  rewrite E, Promise_all_fulfilled, En. split; [reflexivity|]. split.
  - rewrite <- (Forall2_length HN). symmetry. exact (Forall2_length HF).
  - intros i u Hi.
    destruct (Forall2_nth_error _ _ _ HF i u Hi) as [s [His Hs]].
    destruct (Forall2_nth_error _ _ _ HN i s His) as [n [Hin Hn]].
    exists s, n. repeat split; auto.
    rewrite Forall_forall in HG.
    destruct (site_node_groupable w s (HG s (nth_error_In _ _ His))) as [n' [Hn' Hl]].
    congruence.
Qed.

Lemma fetchData_sites_in_order_witness :
  exists nodes,
    snd (fetchData sample_world) = Normal (Fulfilled (Some nodes)) /\
    length nodes = 2 /\
    forall i u, nth_error ["many"; "one"] i = Some u ->
      exists s n, site_promise sample_world u = Fulfilled s /\
                  nth_error nodes i = Some n /\
                  site_node sample_world s = Normal n /\
                  label n = site_label s.
Proof.
  apply (fetchData_sites_in_order sample_world ["many"; "one"] eq_refl).
  intros u [<-|[<-|[]]]; eexists; split; reflexivity.
Defined.

(** C3 as stated fails: the one configured site is fetched and parsed,
    and the load yields no node. *)
Lemma fetchData_sites_counterexample :
  (forall u, In u ["none"] -> exists s, site_promise empty_manifest_world u = Fulfilled s) /\
  snarfURLs empty_manifest_world = Some ["none"] /\
  ~ exists nodes, snd (fetchData empty_manifest_world) = Normal (Fulfilled (Some nodes)) /\
                  length nodes = 1.
Proof.
  split; [|split].
  - intros u [<-|[]]. eexists. reflexivity.
  - reflexivity.
  - intros [nodes [H _]]. vm_compute in H. discriminate.
Qed.

(** C10.  A manifest that is fetched and parsed but has no package element
    makes [fetchSite] resolve to a site whose package list is the
    one-element list holding [undefined]; [makeItem] faults on that
    element, the site node cannot be built, and the whole load is
    rejected. *)
Theorem fetchData_no_package_fails
        (w : World) (urls : list string) (u : string) (resp : Response)
        (body nm : string) :
  snarfURLs w = Some urls ->
  In u urls ->
  fetch w u = Fulfilled resp ->
  ok resp = true ->
  text resp = Fulfilled body ->
  parse w body = Normal {| snarf_site := Some {| site_name := nm; package := PkgUndefined |} |} ->
  site_promise w u = Fulfilled {| site_label := nm; packages := [None] |} /\
  (exists e, makeItem None = Throw e /\
             site_node w {| site_label := nm; packages := [None] |} = Throw e) /\
  (exists e, snd (fetchData w) = Normal (Rejected e)) /\
  ~ (exists r, snd (fetchData w) = Normal (Fulfilled r)).
Proof.
  intros Hcfg Hin Hfetch Hok Htext Hparse.
  assert (Hu : site_promise w u = Fulfilled {| site_label := nm; packages := [None] |}).
  { rewrite site_promise_eq, Hfetch, Hok, Htext, Hparse. reflexivity. }
  assert (Hrej : exists e, snd (fetchData w) = Normal (Rejected e)).
  { rewrite (fetchData_eq w urls Hcfg). simpl.
    destruct (Promise_all (settle_rank w) (map (site_promise w) urls)) as [sites|e] eqn:E.
    - apply Promise_all_fulfilled_inv in E.
      assert (Hs : In {| site_label := nm; packages := [None] |} sites).
      { apply (in_map (site_promise w)) in Hin. rewrite E, Hu in Hin.
        apply in_map_iff in Hin. destruct Hin as [s [Hs Hin]].
        inversion Hs; subst. exact Hin. }
      destruct (map_completion_throws (site_node w) sites _ _ Hs eq_refl) as [e' ->].
      now exists e'.
    - now exists e. }
  split; [exact Hu|]. split; [|split; [exact Hrej|]].
  - eexists. split; reflexivity.
  - intros [r Hr]. destruct Hrej as [e He]. congruence.
Qed.

Lemma fetchData_no_package_fails_witness :
  site_promise empty_manifest_world "none" =
    Fulfilled {| site_label := "none"; packages := [None] |} /\
  snd (fetchData empty_manifest_world) =
    Normal (Rejected (TypeError "Cannot read properties of undefined (reading '@_name')")).
Proof.
  destruct (fetchData_no_package_fails empty_manifest_world ["none"] "none"
              {| ok := true; text := Fulfilled "none"; buffer := Fulfilled [] |}
              "none" "none" eq_refl (or_introl eq_refl) eq_refl eq_refl eq_refl eq_refl)
    as [H _].
  split; [exact H|reflexivity].
Defined.

Lemma site_promise_listed (w : World) (u : string) :
  site_promise (with_parse w (parse_listed w)) u = site_promise w u.
Proof.
  rewrite !site_promise_eq. simpl. unfold parse_listed.
  destruct (fetch w u) as [resp|e]; [|reflexivity].
  destruct (ok resp); [|reflexivity].
  destruct (text resp) as [body|e]; [|reflexivity].
  destruct (parse w body) as [xml|e]; [|reflexivity].
  unfold listed. simpl.
  destruct (snarf_site xml) as [root|]; [|reflexivity].
  simpl. destruct (package root); reflexivity.
Qed.

(** C5.  A lone package record and the one-element array holding it are
    normalized to the same package list, so a load whose parser delivers
    lone records as one-element arrays performs the same requests and
    yields the same tree as the load whose parser delivers them bare. *)
Theorem fetchData_single_package_as_list (w : World) :
  (forall x, package_array (PkgOne x) = [Some x] /\
             package_array (PkgArray [x]) = [Some x]) /\
  (forall nm x,
      site_node w {| site_label := nm; packages := package_array (PkgOne x) |} =
      site_node w {| site_label := nm; packages := package_array (PkgArray [x]) |}) /\
  fetchData (with_parse w (parse_listed w)) = fetchData w.
Proof.
  split; [|split].
  - intros x. split; reflexivity.
  - reflexivity.
  - destruct (snarfURLs w) as [urls|] eqn:Hcfg.
    + rewrite (fetchData_eq (with_parse w (parse_listed w)) urls Hcfg).
      rewrite (fetchData_eq w urls Hcfg).
      rewrite (map_ext _ _ (site_promise_listed w)). reflexivity.
    + unfold fetchData. simpl snarfURLs. rewrite Hcfg. reflexivity.
Qed.

(** ** Sorting and grouping *)

Lemma insert_sorted_In {A} (gt : A -> A -> bool) (x y : A) (l : list A) :
  In y (insert_sorted gt x l) <-> y = x \/ In y l.
Proof.
  induction l as [|z l IH]; simpl.
  - intuition.
  - destruct (gt x z); simpl; rewrite ?IH; intuition.
Qed.

Lemma Array_sort_In {A} (gt : A -> A -> bool) (y : A) (l : list A) :
  In y (Array_sort gt l) <-> In y l.
Proof.
  unfold Array_sort. induction l as [|x l IH]; simpl.
  - reflexivity.
  - rewrite insert_sorted_In, IH. intuition.
Qed.

Section SortOrder.
Context {A : Type}.
Variable gt : A -> A -> bool.
Variable le : A -> A -> Prop.
Hypothesis not_gt_le : forall x y, gt x y = false -> le x y.
Hypothesis gt_le : forall x y, gt x y = true -> le y x.
Hypothesis le_trans : forall x y z, le x y -> le y z -> le x z.

Lemma insert_sorted_sorted (x : A) (l : list A) :
  StronglySorted le l -> StronglySorted le (insert_sorted gt x l).
Proof.
  induction 1 as [|y l Hl IH Hy]; simpl.
  - repeat constructor.
  - destruct (gt x y) eqn:E.
    + constructor; [exact IH|].
      apply Forall_forall. intros z Hz.
      apply (proj1 (insert_sorted_In _ _ _ _)) in Hz. destruct Hz as [->|Hz].
      * now apply gt_le.
      * rewrite Forall_forall in Hy. now apply Hy.
    + constructor; [now constructor|].
      constructor; [now apply not_gt_le|].
      apply Forall_forall. intros z Hz.
      rewrite Forall_forall in Hy.
      apply le_trans with y; [now apply not_gt_le|now apply Hy].
Qed.

(** For a consistent comparator the result of [sort] is ordered. *)
Lemma Array_sort_sorted (l : list A) : StronglySorted le (Array_sort gt l).
Proof.
  unfold Array_sort. induction l as [|x l IH]; simpl.
  - constructor.
  - now apply insert_sorted_sorted.
Qed.
End SortOrder.

Lemma Object_entries_In {V} (o : Obj V) (kv : string * V) :
  In kv (Object_entries o) <-> In kv o.
Proof.
  unfold Object_entries.
  rewrite in_app_iff, Array_sort_In, !filter_In.
  destruct (is_index_entry kv); simpl; intuition discriminate.
Qed.

Lemma push_at_In (k k' : string) (v : list AsyncItem) (it : AsyncItem)
      (o : Obj (list AsyncItem)) :
  In (k, v) (push_at k' it o) ->
  In (k, v) o \/ (k = k' /\ exists v0, In (k', v0) o /\ v = v0 ++ [it]).
Proof.
  induction o as [|[k0 v0] o IH]; simpl; [tauto|].
  destruct (k0 =? k')%string eqn:E; simpl.
  - apply String.eqb_eq in E. subst k0. intros [H|H].
    + inversion H; subst. right. split; [reflexivity|]. exists v0. auto.
    + auto.
  - intros [H|H]; [auto|].
    destruct (IH H) as [H'|[-> [v1 [H1 ->]]]]; [auto|].
    right. split; [reflexivity|]. exists v1. auto.
Qed.

Lemma group_step_well_grouped (acc acc' : Obj (list AsyncItem)) (p : string * AsyncItem) :
  well_grouped acc -> made_for (fst p) (snd p) ->
  group_step acc p = Normal acc' -> well_grouped acc'.
Proof.
  intros Hacc Hp. unfold group_step.
  destruct (has_own "hasOwnProperty" acc); [discriminate|].
  destruct (fst p =? "__proto__")%string; intros H; inversion H; subst; [exact Hacc|].
  intros k v it Hkv Hit.
  assert (Hacc1 : well_grouped (if has_own (fst p) acc then acc else acc ++ [(fst p, [])])).
  { destruct (has_own (fst p) acc); [exact Hacc|].
    intros k1 v1 it1 H1 Hit1. apply in_app_iff in H1. destruct H1 as [H1|[H1|[]]].
    - now apply (Hacc k1 v1).
    - inversion H1; subst. contradiction. }
  apply push_at_In in Hkv. destruct Hkv as [Hkv|[-> [v0 [Hv0 ->]]]].
  - now apply (Hacc1 k v).
  - apply in_app_iff in Hit. destruct Hit as [Hit|[<-|[]]].
    + now apply (Hacc1 (fst p) v0).
    + exact Hp.
Qed.

Lemma reduce_group_step_well_grouped (pairs : list (string * AsyncItem)) :
  Forall (fun p => made_for (fst p) (snd p)) pairs ->
  forall acc items, well_grouped acc ->
                    reduce_completion group_step pairs acc = Normal items ->
                    well_grouped items.
Proof.
  induction 1 as [|p pairs Hp HF IH]; intros acc items Hacc H; simpl in H.
  - inversion H; subst. exact Hacc.
  - destruct (group_step acc p) as [acc'|e] eqn:E; simpl in H; [|discriminate].
    apply (IH acc'); [|exact H].
    now apply (group_step_well_grouped acc acc' p).
Qed.

Lemma makeItem_made_for (xs : list (option SnarfSitePackageItem))
      (pairs : list (string * AsyncItem)) :
  map_completion makeItem xs = Normal pairs ->
  Forall (fun p => made_for (fst p) (snd p)) pairs.
Proof.
  intros H. apply map_completion_inv in H.
  induction H as [|x p xs pairs Hx HF IH]; constructor; [|exact IH].
  destruct x as [r|]; simpl in Hx; [|discriminate].
  inversion Hx; subst. simpl. exists r. auto.
Qed.

(** The children of a site node are the folder nodes of a well-grouped
    accumulator. *)
Lemma site_node_inv (w : World) (s : Site) (n : AsyncItem) :
  site_node w s = Normal n ->
  exists items, well_grouped items /\
                children_of n = map (category_node w) (Object_entries items).
Proof.
  unfold site_node.
  destruct (map_completion makeItem (packages s)) as [pairs|e] eqn:E; simpl; [|discriminate].
  destruct (reduce_completion group_step pairs []) as [items|e] eqn:R; simpl; [|discriminate].
  intros H. inversion H; subst. exists items. split; [|reflexivity].
  apply (reduce_group_step_well_grouped pairs (makeItem_made_for _ _ E) [] items); [|exact R].
  intros k v it [].
Qed.

Lemma Forall2_In_r {A B} (R : A -> B -> Prop) (xs : list A) (ys : list B) (y : B) :
  Forall2 R xs ys -> In y ys -> exists x, In x xs /\ R x y.
Proof.
  induction 1 as [|x0 y0 xs ys HR HF IH]; intros Hin; [contradiction|].
  destruct Hin as [<-|Hin].
  - exists x0. split; [now left|exact HR].
  - destruct (IH Hin) as [x [Hx HRx]]. exists x. split; [now right|exact HRx].
Qed.

(** The nodes of a fulfilled load are site nodes. *)
Lemma fetchData_nodes_inv (w : World) (nodes : list AsyncItem) (site : AsyncItem) :
  snd (fetchData w) = Normal (Fulfilled (Some nodes)) ->
  In site nodes -> exists s, site_node w s = Normal site.
Proof.
  intros H Hin. destruct (snarfURLs w) as [urls|] eqn:Hcfg.
  - rewrite (fetchData_eq w urls Hcfg) in H. simpl in H.
    destruct (Promise_all (settle_rank w) (map (site_promise w) urls)) as [sites|e];
      [|discriminate].
    destruct (map_completion (site_node w) sites) as [nodes'|e] eqn:E; [|discriminate].
    inversion H; subst. apply map_completion_inv in E.
    destruct (Forall2_In_r _ _ _ _ E Hin) as [s [_ Hs]]. now exists s.
  - unfold fetchData, async in H. rewrite Hcfg in H. discriminate.
Qed.

(** Closes a goal whose hypotheses make the strict order of strings run
    in a circle. *)
Ltac absurd_cycle :=
  exfalso; unfold String_as_OT.eq in *; subst;
  match goal with
  | H : String_as_OT.lt ?x ?x |- _ =>
      elim (StrictOrder_Irreflexive (R := String_as_OT.lt) x H)
  | H1 : String_as_OT.lt ?x ?y, H2 : String_as_OT.lt ?y ?x |- _ =>
      elim (StrictOrder_Irreflexive (R := String_as_OT.lt) x
              (StrictOrder_Transitive (R := String_as_OT.lt) x y x H1 H2))
  | H1 : String_as_OT.lt ?x ?y, H2 : String_as_OT.lt ?y ?z,
    H3 : String_as_OT.lt ?z ?x |- _ =>
      elim (StrictOrder_Irreflexive (R := String_as_OT.lt) x
              (StrictOrder_Transitive (R := String_as_OT.lt) x y x H1
                 (StrictOrder_Transitive (R := String_as_OT.lt) y z x H2 H3)))
  end.

Lemma codepoint_compare_total (a b : string) :
  (0 < codepoint_compare a b)%Z -> (codepoint_compare b a <= 0)%Z.
Proof.
  unfold codepoint_compare.
  destruct (String_as_OT.compare_spec a b) as [E|L|G];
    destruct (String_as_OT.compare_spec b a) as [E'|L'|G']; try lia.
  intros _. absurd_cycle.
Qed.

Lemma codepoint_compare_trans (a b c : string) :
  (codepoint_compare a b <= 0)%Z -> (codepoint_compare b c <= 0)%Z ->
  (codepoint_compare a c <= 0)%Z.
Proof.
  unfold codepoint_compare.
  destruct (String_as_OT.compare_spec a b) as [E|L|G]; try lia;
    destruct (String_as_OT.compare_spec b c) as [E'|L'|G']; try lia;
    destruct (String_as_OT.compare_spec a c) as [E''|L''|G'']; try lia;
    intros _ _; absurd_cycle.
Qed.

(** ** The install *)

Lemma downloadItem_eq (w : World) (d : string) (pack : option SnarfSitePackageItem) :
  downloadItem w d pack =
  (fst (downloadItem w d pack), Normal (promise_of (downloadItem w d pack))).
Proof.
  reflexivity.
Qed.

(** With a destination root at hand, [snarfItem] shows the progress, sets
    the timer, runs the download and returns normally; the promise of the
    download is combined by [Promise.all] and then dropped, so that a
    rejection never reaches the [catch] block. *)
Lemma snarfItem_eq (w : World) (item : AsyncItem) (d : string) :
  workspace_dir w = Normal (Some d) ->
  d <> "" ->
  snarfItem w item =
  (EProgress "snarferBrowser" "Snarfing..." :: ETimer 1000
     :: fst (downloadItem w d (item_of item))
     ++ match promise_of (downloadItem w d (item_of item)) with
        | Fulfilled _ => []
        | Rejected e => [ERejectionDropped e]
        end,
   Normal tt).
Proof.
  intros Hdir Hd. apply String.eqb_neq in Hd. unfold snarfItem. rewrite Hdir.
  unfold lift, bind at 1. cbn [fst snd falsy]. rewrite Hd.
  rewrite downloadItem_eq.
  generalize (fst (downloadItem w d (item_of item))) as t.
  generalize (promise_of (downloadItem w d (item_of item))) as p.
  intros p t. unfold withProgress, delay, try_catch, bind, emit, ret, discard. simpl.
  destruct p as [[]|e]; simpl; rewrite ?app_nil_r; reflexivity.
Qed.

(** What the [catch] block does with an error that is thrown inside the
    [try] block. *)
Lemma try_catch_reports (w : World) (t : list Event) (err : Thrown) :
  try_catch (t, Throw err)
            (fun err => _ <- showInformationMessage w (error_message err) [] ;;
                        emit (EConsoleError err)) =
  (t ++ [EShowInfo (error_message err) []; EConsoleError err], Normal tt).
Proof.
  reflexivity.
Qed.

(** One case split on an answer of the surroundings. *)
Ltac step_world :=
  match goal with
  | |- context [fetch ?w ?u] => destruct (fetch w u) as [?resp|?err] eqn:?
  | |- context [buffer ?r] => destruct (buffer r) as [?zipfile|?err] eqn:?
  | |- context [unzip_Open_buffer ?w ?z] =>
      destruct (unzip_Open_buffer w z) as [?zip|?err] eqn:?
  | |- context [existsSync ?w ?p] => destruct (existsSync w p) eqn:?
  | |- context [is_Yes ?a] => destruct (is_Yes a) eqn:?
  | |- context [extract ?w ?z ?p] => destruct (extract w z p) as [[]|?err] eqn:?
  end; simpl.

Ltac run_download :=
  unfold promise_of, downloadItem, async, extract_and_report, showInformationMessage;
  simpl.

Lemma download_reports_no_error (w : World) (d : string) (pack : option SnarfSitePackageItem) :
  Forall (fun ev => is_error_report ev = false /\ forall x, ev <> EConsoleError x)
         (fst (downloadItem w d pack)).
Proof.
  destruct pack as [p|]; run_download; repeat step_world;
    repeat (constructor; [split; [reflexivity|discriminate]|]); constructor.
Qed.

(** C1.  The code does not do what the claim says.  Whenever the download
    promise is rejected (the request, the buffering, the opening of the
    archive or the extraction failed), [snarfItem] has already returned
    normally: the rejection is dropped, no message carrying the error is
    shown and nothing is logged. *)
Theorem snarfItem_rejection_not_reported
        (w : World) (item : AsyncItem) (d : string) (e : Thrown) :
  workspace_dir w = Normal (Some d) ->
  d <> "" ->
  promise_of (downloadItem w d (item_of item)) = Rejected e ->
  snd (snarfItem w item) = Normal tt /\
  In (ERejectionDropped e) (fst (snarfItem w item)) /\
  Forall (fun ev => is_error_report ev = false /\ forall x, ev <> EConsoleError x)
         (fst (snarfItem w item)).
Proof.
  intros Hdir Hd Hrej. rewrite (snarfItem_eq w item d Hdir Hd), Hrej. simpl.
  split; [reflexivity|]. split.
  - right. right. apply in_or_app. right. now left.
  - constructor; [split; [reflexivity|discriminate]|].
    constructor; [split; [reflexivity|discriminate]|].
    apply Forall_app. split; [apply download_reports_no_error|].
    constructor; [split; [reflexivity|discriminate]|constructor].
Qed.

Lemma snarfItem_rejection_not_reported_witness :
  snarfItem corrupt_world (sample_node "labs" "Lab1") =
    ([EProgress "snarferBrowser" "Snarfing..."; ETimer 1000;
      EFetch "https://example.org/Lab1.zip";
      ERejectionDropped (Error "FILE_ENDED")],
     Normal tt) /\
  Forall (fun ev => is_error_report ev = false /\ forall x, ev <> EConsoleError x)
         (fst (snarfItem corrupt_world (sample_node "labs" "Lab1"))).
Proof.
  split; [reflexivity|].
  refine (proj2 (proj2 (snarfItem_rejection_not_reported
                          corrupt_world (sample_node "labs" "Lab1") "/home/me/ws"
                          (Error "FILE_ENDED") eq_refl _ eq_refl))).
  discriminate.
Defined.




(** C7.  With the destination present and an answer other than Yes, the
    install writes nothing and shows neither the success message nor an
    error message; when the archive was downloaded and opened, all it did
    was to show the progress, set the timer, issue the request and put the
    overwrite question. *)
Theorem snarfItem_declined_overwrite
        (w : World) (item : AsyncItem) (p : SnarfSitePackageItem) (d : string) :
  workspace_dir w = Normal (Some d) ->
  item_of item = Some p ->
  existsSync w (path_join w d (name p)) = true ->
  is_Yes (answer w overwrite_question ["Yes"; "No"]) = false ->
  Forall (fun ev => is_fs_write ev = false /\
                    is_success_report ev = false /\
                    is_error_report ev = false) (fst (snarfItem w item)) /\
  (forall resp zipfile zip,
      d <> "" ->
      fetch w (entry_url p) = Fulfilled resp ->
      buffer resp = Fulfilled zipfile ->
      unzip_Open_buffer w zipfile = Fulfilled zip ->
      snarfItem w item =
      ([EProgress "snarferBrowser" "Snarfing..."; ETimer 1000; EFetch (entry_url p);
        EShowInfo "Directory already exists. Overwrite?" ["Yes"; "No"]],
       Normal tt)).
Proof.
  intros Hdir Hitem Hex Hans. split.
  - destruct (string_dec d "") as [->|Hd].
    + unfold snarfItem. rewrite Hdir. simpl.
      constructor; [repeat split|constructor].
    + rewrite (snarfItem_eq w item d Hdir Hd), Hitem.
      run_download. rewrite Hex, Hans.
      repeat step_world; repeat (constructor; [repeat split|]); constructor.
  - intros resp zipfile zip Hd Hf Hb Hz.
    rewrite (snarfItem_eq w item d Hdir Hd), Hitem.
    run_download. rewrite Hf. simpl. rewrite Hb. simpl. rewrite Hz. simpl.
    rewrite Hex. simpl. rewrite Hans. reflexivity.
Qed.

Lemma snarfItem_declined_overwrite_witness :
  snarfItem (with_answer sample_world (Some "No")) (sample_node "labs" "Lab1") =
    ([EProgress "snarferBrowser" "Snarfing..."; ETimer 1000;
      EFetch "https://example.org/Lab1.zip";
      EShowInfo "Directory already exists. Overwrite?" ["Yes"; "No"]],
     Normal tt) /\
  Forall (fun ev => is_fs_write ev = false /\
                    is_success_report ev = false /\
                    is_error_report ev = false)
         (fst (snarfItem (with_answer sample_world (Some "No")) (sample_node "labs" "Lab1"))).
Proof.
  destruct (snarfItem_declined_overwrite
              (with_answer sample_world (Some "No")) (sample_node "labs" "Lab1")
              (sample_package "labs" "Lab1") "/home/me/ws"
              eq_refl eq_refl eq_refl eq_refl) as [H1 H2].
  split; [|exact H1].
  eapply H2; [discriminate|reflexivity|reflexivity|reflexivity].
Defined.

(** The guided no-op: with no workspace opened (the folder list is
    [undefined]) the install shows the one message and does nothing else. *)
Lemma snarfItem_without_workspace (w : World) (item : AsyncItem) :
  workspaceFolders w = None ->
  snarfItem w item = ([EShowInfo "Please open a folder first." []], Normal tt).
Proof.
  intros H. unfold snarfItem, workspace_dir. rewrite H. reflexivity.
Qed.

(** C8.  The code does not do what the claim says when a workspace is
    opened that has no folder: the folder list is then empty, reading the
    first folder's [uri] faults, and the install throws before it shows
    any message. *)
Theorem snarfItem_empty_folder_list (w : World) (item : AsyncItem) :
  workspaceFolders w = Some [] ->
  snarfItem w item =
    ([], Throw (TypeError "Cannot read properties of undefined (reading 'uri')")) /\
  existsb is_info (fst (snarfItem w item)) = false.
Proof.
  intros H. unfold snarfItem, workspace_dir. rewrite H. split; reflexivity.
Qed.

Lemma snarfItem_empty_folder_list_witness :
  snarfItem (with_folders sample_world (Some [])) (sample_node "labs" "Lab1") =
    ([], Throw (TypeError "Cannot read properties of undefined (reading 'uri')")) /\
  existsb is_info
    (fst (snarfItem (with_folders sample_world (Some [])) (sample_node "labs" "Lab1"))) = false.
Proof.
  apply (snarfItem_empty_folder_list (with_folders sample_world (Some []))
                                     (sample_node "labs" "Lab1")).
  reflexivity.
Defined.

(** * Further properties *)

(** ** The load, continued *)

Lemma map_fulfilled_of_Forall2 {A B} (f : A -> Promise B) (xs : list A) (ys : list B) :
  Forall2 (fun x y => f x = Fulfilled y) xs ys -> map f xs = map Fulfilled ys.
Proof.
  induction 1 as [|x y xs ys H HF IH]; simpl; congruence.
Qed.

Lemma Forall2_of_map_fulfilled {A B} (f : A -> Promise B) (xs : list A) (ys : list B) :
  map f xs = map Fulfilled ys -> Forall2 (fun x y => f x = Fulfilled y) xs ys.
Proof.
  revert ys. induction xs as [|x xs IH]; intros [|y ys] H; simpl in H;
    try discriminate; constructor.
  - congruence.
  - apply IH. congruence.
Qed.

Lemma map_completion_of_Forall2 {A B} (f : A -> Completion B) (xs : list A) (ys : list B) :
  Forall2 (fun x y => f x = Normal y) xs ys -> map_completion f xs = Normal ys.
Proof.
  induction 1 as [|x y xs ys H HF IH]; simpl; [reflexivity|].
  now rewrite H, IH.
Qed.

(** X1.  Whatever the sites answer, a load with a URL list configured
    issues exactly one request per configured URL, in the configured
    order, and performs nothing else: a failing site does not keep the
    requests for the later sites from being issued. *)
Theorem fetchData_requests_every_url (w : World) (urls : list string) :
  snarfURLs w = Some urls ->
  fst (fetchData w) = map EFetch urls /\
  length (filter is_fetch (fst (fetchData w))) = length urls.
Proof.
  intros H. rewrite (fetchData_eq w urls H). simpl. split; [reflexivity|].
  clear H. induction urls as [|u urls IH]; simpl; congruence.
Qed.

Lemma fetchData_requests_every_url_witness :
  fst (fetchData (with_urls sample_world (Some ["many"; "missing"; "one"]))) =
    [EFetch "many"; EFetch "missing"; EFetch "one"] /\
  length (filter is_fetch
            (fst (fetchData (with_urls sample_world (Some ["many"; "missing"; "one"]))))) = 3.
Proof.
  apply (fetchData_requests_every_url
           (with_urls sample_world (Some ["many"; "missing"; "one"]))
           ["many"; "missing"; "one"]).
  reflexivity.
Defined.

(** X2.  The load is all or nothing: it fulfils with a list of nodes
    exactly when a URL list is configured, every site promise fulfils and
    every site node can be built, the nodes then standing in the order of
    the URLs. *)
Theorem fetchData_fulfilled_iff (w : World) (nodes : list AsyncItem) :
  snd (fetchData w) = Normal (Fulfilled (Some nodes)) <->
  exists urls sites,
    snarfURLs w = Some urls /\
    Forall2 (fun u s => site_promise w u = Fulfilled s) urls sites /\
    Forall2 (fun s n => site_node w s = Normal n) sites nodes.
Proof.
  split.
  - intros H. destruct (snarfURLs w) as [urls|] eqn:Hcfg.
    + rewrite (fetchData_eq w urls Hcfg) in H. simpl in H.
      destruct (Promise_all (settle_rank w) (map (site_promise w) urls)) as [sites|e] eqn:E;
        [|discriminate].
      destruct (map_completion (site_node w) sites) as [nodes'|e] eqn:En; [|discriminate].
      inversion H; subst. exists urls, sites. split; [reflexivity|]. split.
      * apply Forall2_of_map_fulfilled. now apply Promise_all_fulfilled_inv in E.
      * now apply map_completion_inv.
    + unfold fetchData, async in H. rewrite Hcfg in H. discriminate.
  - intros [urls [sites [Hcfg [HS HN]]]].
    rewrite (fetchData_eq w urls Hcfg). simpl.
    rewrite (map_fulfilled_of_Forall2 _ _ _ HS), Promise_all_fulfilled.
    now rewrite (map_completion_of_Forall2 _ _ _ HN).
Qed.

(** X3.  A transport error, a failure to read the body, a parser error
    and a document without the [snarf_site] root all reject the promise
    of their site with the underlying error unchanged; the whole load is
    then rejected, with that very error when no other site fails. *)
Theorem fetchData_fetch_or_parse_failure
        (w : World) (urls : list string) (u : string) (e : Thrown) :
  snarfURLs w = Some urls ->
  In u urls ->
  (fetch w u = Rejected e \/
   exists resp, fetch w u = Fulfilled resp /\ ok resp = true /\
     (text resp = Rejected e \/
      exists body, text resp = Fulfilled body /\
        (parse w body = Throw e \/
         exists xml, parse w body = Normal xml /\ snarf_site xml = None /\
           e = TypeError "Cannot read properties of undefined (reading '@_name')"))) ->
  site_promise w u = Rejected e /\
  (exists e', snd (fetchData w) = Normal (Rejected e')) /\
  ((forall u', In u' urls -> u' <> u -> exists s, site_promise w u' = Fulfilled s) ->
   snd (fetchData w) = Normal (Rejected e)).
Proof.
  intros Hcfg Hin Hfail.
  assert (Hu : site_promise w u = Rejected e).
  { rewrite site_promise_eq.
    destruct Hfail as [->|[resp [-> [-> [->|[body [-> [->|[xml [-> [-> ->]]]]]]]]]]];
      reflexivity. }
  assert (Hall : exists e' u', snd (fetchData w) = Normal (Rejected e') /\
                               In u' urls /\ site_promise w u' = Rejected e').
  { rewrite (fetchData_eq w urls Hcfg). simpl.
    destruct (Promise_all_rejected (settle_rank w) (map (site_promise w) urls) e)
      as [e' [E He]].
    - rewrite <- Hu. now apply in_map.
    - apply in_map_iff in He. destruct He as [u' [Hu' Hin']].
      exists e', u'. rewrite E. auto. }
  split; [exact Hu|]. split.
  - destruct Hall as [e' [_ [E _]]]. now exists e'.
  - intros Hothers. destruct Hall as [e' [u' [E [Hin' Hu']]]].
    rewrite E. destruct (string_dec u' u) as [->|Hne].
    + congruence.
    + destruct (Hothers u' Hin' Hne) as [s Hs]. congruence.
Qed.

Lemma fetchData_fetch_or_parse_failure_witness :
  site_promise offline_world "down" = Rejected (Error "ECONNREFUSED") /\
  snd (fetchData offline_world) = Normal (Rejected (Error "ECONNREFUSED")).
Proof.
  destruct (fetchData_fetch_or_parse_failure offline_world ["many"; "down"] "down"
              (Error "ECONNREFUSED") eq_refl (or_intror (or_introl eq_refl))
              (or_introl eq_refl)) as [H1 [_ H3]].
  split; [exact H1|]. apply H3.
  intros u' [<-|[<-|[]]] Hne.
  - eexists. reflexivity.
  - now elim Hne.
Defined.

(** ** Grouping, continued *)

(** An invariant of the callback is an invariant of [reduce]. *)
Lemma reduce_completion_inv {A B} (f : B -> A -> Completion B) (P : list A -> B -> Prop) :
  (forall done acc x acc', P done acc -> f acc x = Normal acc' -> P (done ++ [x]) acc') ->
  forall xs done acc r,
    P done acc -> reduce_completion f xs acc = Normal r -> P (done ++ xs) r.
Proof.
  intros Hstep xs. induction xs as [|x xs IH]; intros done acc r HP H; simpl in H.
  - inversion H; subst. now rewrite app_nil_r.
  - destruct (f acc x) as [acc'|e] eqn:E; simpl in H; [|discriminate].
    replace (done ++ x :: xs) with ((done ++ [x]) ++ xs) by now rewrite <- app_assoc.
    apply (IH (done ++ [x]) acc'); [|exact H]. now apply (Hstep done acc).
Qed.

Lemma push_at_new (k : string) (it : AsyncItem) (v : list AsyncItem)
      (o : Obj (list AsyncItem)) :
  has_own k o = false -> push_at k it (o ++ [(k, v)]) = o ++ [(k, v ++ [it])].
Proof.
  induction o as [|[k0 v0] o IH]; simpl; intros H.
  - now rewrite String.eqb_refl.
  - apply orb_false_iff in H. destruct H as [H0 H]. rewrite H0. now rewrite IH.
Qed.

(** What one step of the grouping does when it returns. *)
Lemma group_step_normal (acc acc' : Obj (list AsyncItem)) (k : string) (it : AsyncItem) :
  group_step acc (k, it) = Normal acc' ->
  has_own "hasOwnProperty" acc = false /\
  ((k = "__proto__" /\ acc' = acc) \/
   (k <> "__proto__" /\ has_own k acc = true /\ acc' = push_at k it acc) \/
   (k <> "__proto__" /\ has_own k acc = false /\ acc' = acc ++ [(k, [it])])).
Proof.
  unfold group_step. simpl.
  destruct (has_own "hasOwnProperty" acc); [discriminate|].
  destruct (k =? "__proto__")%string eqn:Ek; intros H; inversion H; subst;
    split; try reflexivity.
  - left. apply String.eqb_eq in Ek. auto.
  - right. apply String.eqb_neq in Ek.
    destruct (has_own k acc) eqn:Eo; [left; auto|right].
    repeat split; auto. now apply (push_at_new k it []).
Qed.

Lemma push_at_keys (k : string) (it : AsyncItem) (o : Obj (list AsyncItem)) :
  map fst (push_at k it o) = map fst o.
Proof.
  induction o as [|[k0 v0] o IH]; simpl; [reflexivity|].
  destruct (k0 =? k)%string; simpl; congruence.
Qed.

Lemma has_own_In {V} (k : string) (o : Obj V) :
  has_own k o = true <-> In k (map fst o).
Proof.
  unfold has_own. rewrite existsb_exists, in_map_iff. split.
  - intros [kv [H E]]. apply String.eqb_eq in E. eauto.
  - intros [kv [E H]]. exists kv. split; [exact H|]. now apply String.eqb_eq.
Qed.

Lemma push_at_values (k : string) (it : AsyncItem) (o : Obj (list AsyncItem)) :
  has_own k o = true ->
  Permutation (concat (map snd (push_at k it o))) (it :: concat (map snd o)).
Proof.
  induction o as [|[k0 v0] o IH]; simpl; [discriminate|].
  destruct (k0 =? k)%string eqn:E; simpl; intros H.
  - rewrite <- app_assoc. simpl. symmetry. apply Permutation_middle.
  - rewrite (IH H). symmetry. apply Permutation_middle.
Qed.

Lemma push_at_nonempty (k : string) (it : AsyncItem) (o : Obj (list AsyncItem)) :
  Forall (fun kv => snd kv <> []) o ->
  Forall (fun kv => snd kv <> []) (push_at k it o).
Proof.
  induction 1 as [|[k0 v0] o H HF IH]; simpl; [constructor|].
  destruct (k0 =? k)%string; constructor; auto.
  simpl. intros E. now apply app_eq_nil in E.
Qed.

(** ** Object.entries and sort are rearrangements *)

Lemma insert_sorted_perm {A} (gt : A -> A -> bool) (x : A) (l : list A) :
  Permutation (insert_sorted gt x l) (x :: l).
Proof.
  induction l as [|y l IH]; simpl; [reflexivity|].
  destruct (gt x y); [|reflexivity].
  rewrite IH. apply perm_swap.
Qed.

Lemma Array_sort_perm {A} (gt : A -> A -> bool) (l : list A) :
  Permutation (Array_sort gt l) l.
Proof.
  unfold Array_sort. induction l as [|x l IH]; simpl; [reflexivity|].
  rewrite insert_sorted_perm. now constructor.
Qed.

Lemma filter_partition_perm {A} (f : A -> bool) (l : list A) :
  Permutation (filter f l ++ filter (fun x => negb (f x)) l) l.
Proof.
  induction l as [|x l IH]; simpl; [reflexivity|].
  destruct (f x); simpl.
  - now constructor.
  - rewrite <- Permutation_middle. now constructor.
Qed.

Lemma Object_entries_perm {V} (o : Obj V) : Permutation (Object_entries o) o.
Proof.
  unfold Object_entries. rewrite Array_sort_perm. apply filter_partition_perm.
Qed.

Lemma flat_map_perm_pointwise {A B} (f g : A -> list B) (l : list A) :
  (forall x, Permutation (f x) (g x)) -> Permutation (flat_map f l) (flat_map g l).
Proof.
  intros H. induction l as [|x l IH]; simpl; [reflexivity|].
  now apply Permutation_app.
Qed.

(** The pairs [map(makeItem)] yields for a list of package records. *)
Lemma makeItem_records (pkgs : list SnarfSitePackageItem) :
  map_completion makeItem (map Some pkgs) =
  Normal (map (fun p => (category p, package_node p)) pkgs).
Proof.
  induction pkgs as [|p pkgs IH]; simpl; [reflexivity|].
  now rewrite IH.
Qed.

Lemma filter_snoc {A} (f : A -> bool) (l : list A) (x : A) :
  filter f (l ++ [x]) = filter f l ++ (if f x then [x] else []).
Proof.
  rewrite filter_app. reflexivity.
Qed.

Lemma group_step_grouped (done : list (string * AsyncItem)) (acc acc' : Obj (list AsyncItem))
      (x : string * AsyncItem) :
  grouped done acc -> group_step acc x = Normal acc' -> grouped (done ++ [x]) acc'.
Proof.
  destruct x as [k it]. intros [Hnd [Hproto [Hne [Hkeys Hperm]]]] Hstep.
  apply group_step_normal in Hstep.
  destruct Hstep as [_ [[-> ->]|[[Hk [Hown ->]]|[Hk [Hown ->]]]]].
  - split; [exact Hnd|]. split; [exact Hproto|]. split; [exact Hne|]. split.
    + intros k'. rewrite Hkeys, map_app, in_app_iff. simpl.
      split; [tauto|]. intros [[H|[H|[]]] Hp]; [tauto|congruence].
    + rewrite filter_snoc. simpl. now rewrite app_nil_r.
  - split; [now rewrite push_at_keys|]. split; [now rewrite has_own_push_at|].
    split; [now apply push_at_nonempty|]. split.
    + intros k'. rewrite push_at_keys, Hkeys, map_app, in_app_iff. simpl.
      split; [tauto|]. intros [[H|[H|[]]] Hp]; [tauto|].
      subst k'. apply Hkeys. now apply has_own_In.
    + rewrite (push_at_values k it acc Hown), filter_snoc. simpl.
      apply String.eqb_neq in Hk. rewrite Hk. simpl.
      rewrite map_app. simpl. rewrite Hperm. apply Permutation_cons_append.
  - assert (Hfresh : ~ In k (map fst acc)).
    { intros H. apply has_own_In in H. congruence. }
    split; [|split; [|split; [|split]]].
    + rewrite map_app. simpl.
      apply (Permutation_NoDup (Permutation_cons_append (map fst acc) k)).
      now constructor.
    + rewrite has_own_app, Hproto. simpl.
      apply String.eqb_neq in Hk. now rewrite Hk.
    + apply Forall_app. split; [exact Hne|]. constructor; [discriminate|constructor].
    + intros k'. rewrite !map_app, !in_app_iff, Hkeys. simpl.
      split; [|tauto]. intros [H|[H|[]]]; [tauto|]. subst k'. tauto.
    + rewrite map_app, concat_app, filter_snoc. simpl.
      apply String.eqb_neq in Hk. rewrite Hk. simpl.
      rewrite map_app. simpl. now apply Permutation_app_tail.
Qed.

Lemma grouped_empty : grouped [] [].
Proof.
  split; [constructor|]. split; [reflexivity|]. split; [constructor|].
  split; [intros k; simpl; tauto|constructor].
Qed.

(** The groups of a site node that was built. *)
Lemma site_node_grouped (w : World) (s : Site) (n : AsyncItem)
      (pkgs : list SnarfSitePackageItem) :
  packages s = map Some pkgs ->
  site_node w s = Normal n ->
  exists items,
    grouped (map (fun p => (category p, package_node p)) pkgs) items /\
    children_of n = map (category_node w) (Object_entries items).
Proof.
  intros Hp. unfold site_node. rewrite Hp, makeItem_records. simpl.
  destruct (reduce_completion group_step _ []) as [items|e] eqn:R; simpl; [|discriminate].
  intros H. inversion H; subst. exists items. split; [|reflexivity].
  exact (reduce_completion_inv group_step grouped
           (fun done acc x acc' => group_step_grouped done acc acc' x) _ [] [] items
           grouped_empty R).
Qed.

Lemma filter_not_proto (pkgs : list SnarfSitePackageItem) :
  map snd (filter (fun pr => negb (fst pr =? "__proto__")%string)
                  (map (fun p => (category p, package_node p)) pkgs)) =
  map package_node (filter not_proto pkgs).
Proof.
  induction pkgs as [|p pkgs IH]; simpl; [reflexivity|].
  unfold not_proto at 1. destruct (category p =? "__proto__")%string; simpl; congruence.
Qed.

(** X4.  Grouping neither loses nor repeats a package: the package nodes
    under the folders of a site node are, up to their order, the nodes of
    the site's packages outside the category [__proto__] -- the packages
    of that category are left out of the tree. *)
Theorem site_node_keeps_every_package
        (w : World) (s : Site) (n : AsyncItem) (pkgs : list SnarfSitePackageItem) :
  packages s = map Some pkgs ->
  site_node w s = Normal n ->
  Permutation (flat_map children_of (children_of n))
              (map package_node (filter not_proto pkgs)).
Proof.
  intros Hp Hn.
  destruct (site_node_grouped w s n pkgs Hp Hn) as [items [[_ [_ [_ [_ Hperm]]]] ->]].
  rewrite flat_map_concat_map, map_map, <- flat_map_concat_map.
  rewrite (flat_map_perm_pointwise _ snd).
  - rewrite (Permutation_flat_map snd (Object_entries_perm items)).
    rewrite flat_map_concat_map, Hperm. now rewrite filter_not_proto.
  - intros [k v]. simpl. apply Array_sort_perm.
Qed.

(** X5.  The folders of a site node have distinct labels, none is empty,
    none is labelled [__proto__], and a label occurs exactly when it is
    the category of one of the site's packages. *)
Theorem site_node_folders
        (w : World) (s : Site) (n : AsyncItem) (pkgs : list SnarfSitePackageItem) :
  packages s = map Some pkgs ->
  site_node w s = Normal n ->
  NoDup (map label (children_of n)) /\
  Forall (fun folder => children_of folder <> []) (children_of n) /\
  (forall k, In k (map label (children_of n)) <->
             (In k (map category pkgs) /\ k <> "__proto__")).
Proof.
  intros Hp Hn.
  destruct (site_node_grouped w s n pkgs Hp Hn) as [items [[Hnd [_ [Hne [Hkeys _]]]] ->]].
  assert (Hlabels : map label (map (category_node w) (Object_entries items)) =
                    map fst (Object_entries items)).
  { rewrite map_map. reflexivity. }
  assert (Hperm : Permutation (map fst (Object_entries items)) (map fst items)).
  { apply Permutation_map, Object_entries_perm. }
  rewrite Hlabels. split; [|split].
  - apply (Permutation_NoDup (Permutation_sym Hperm) Hnd).
  - apply Forall_forall. intros folder Hf. apply in_map_iff in Hf.
    destruct Hf as [[k v] [<- Hkv]]. simpl.
    apply (proj1 (Object_entries_In _ _)) in Hkv.
    rewrite Forall_forall in Hne. specialize (Hne (k, v) Hkv). simpl in Hne.
    intros E. apply Hne.
    apply Permutation_nil. rewrite <- E. apply Array_sort_perm.
  - intros k. rewrite map_map in Hkeys. simpl in Hkeys.
    rewrite <- Hkeys. split; apply Permutation_in; [exact Hperm|now symmetry].
Qed.

Lemma site_node_keeps_every_package_witness :
  exists n,
    site_node sample_world (site_with_categories ["labs"; "__proto__"; "hw"; "labs"]) = Normal n /\
    Permutation (flat_map children_of (children_of n))
                [package_node (sample_package "labs" "labs");
                 package_node (sample_package "hw" "hw");
                 package_node (sample_package "labs" "labs")].
Proof.
  eexists. split; [reflexivity|].
  apply (site_node_keeps_every_package
           sample_world (site_with_categories ["labs"; "__proto__"; "hw"; "labs"]) _
           [sample_package "labs" "labs"; sample_package "__proto__" "__proto__";
            sample_package "hw" "hw"; sample_package "labs" "labs"]);
    reflexivity.
Defined.

Lemma site_node_folders_witness :
  exists n,
    site_node sample_world (site_with_categories ["labs"; "__proto__"; "hw"; "labs"]) = Normal n /\
    map label (children_of n) = ["labs"; "hw"] /\
    NoDup (map label (children_of n)) /\
    Forall (fun folder => children_of folder <> []) (children_of n).
Proof.
  eexists. split; [reflexivity|]. split; [reflexivity|].
  destruct (site_node_folders
              sample_world (site_with_categories ["labs"; "__proto__"; "hw"; "labs"]) _
              [sample_package "labs" "labs"; sample_package "__proto__" "__proto__";
               sample_package "hw" "hw"; sample_package "labs" "labs"]
              eq_refl eq_refl) as [H1 [H2 _]].
  split; [exact H1|exact H2].
Defined.

Lemma reduce_completion_app {A B} (f : B -> A -> Completion B) (xs ys : list A) (acc : B) :
  reduce_completion f (xs ++ ys) acc =
  cbind (reduce_completion f xs acc) (reduce_completion f ys).
Proof.
  revert acc. induction xs as [|x xs IH]; intros acc; simpl; [reflexivity|].
  destruct (f acc x); simpl; auto.
Qed.

(** The grouping knows one fault only. *)
Lemma reduce_group_step_throw (pairs : list (string * AsyncItem)) :
  forall acc e, reduce_completion group_step pairs acc = Throw e ->
                e = TypeError "acc.hasOwnProperty is not a function".
Proof.
  induction pairs as [|x pairs IH]; intros acc e H; simpl in H; [discriminate|].
  unfold group_step at 1 in H.
  destruct (has_own "hasOwnProperty" acc); simpl in H; [congruence|].
  destruct (fst x =? "__proto__")%string; simpl in H; eauto.
Qed.

Lemma reduce_group_step_shadowed (x : string * AsyncItem) (pairs : list (string * AsyncItem))
      (acc : Obj (list AsyncItem)) :
  has_own "hasOwnProperty" acc = true ->
  reduce_completion group_step (x :: pairs) acc =
  Throw (TypeError "acc.hasOwnProperty is not a function").
Proof.
  intros H. simpl. unfold group_step. now rewrite H.
Qed.

Lemma fetchData_site_node_throws (w : World) (urls : list string) (u : string)
      (s : Site) (e : Thrown) :
  snarfURLs w = Some urls -> In u urls ->
  site_promise w u = Fulfilled s -> site_node w s = Throw e ->
  exists e', snd (fetchData w) = Normal (Rejected e').
Proof.
  intros Hcfg Hin Hu Hs. rewrite (fetchData_eq w urls Hcfg). simpl.
  destruct (Promise_all (settle_rank w) (map (site_promise w) urls)) as [sites|e0] eqn:E.
  - apply Promise_all_fulfilled_inv in E.
    assert (Hin' : In s sites).
    { apply (in_map (site_promise w)) in Hin. rewrite E, Hu in Hin.
      apply in_map_iff in Hin. destruct Hin as [s' [Hs' Hin]].
      inversion Hs'; subst. exact Hin. }
    destruct (map_completion_throws (site_node w) sites s e Hin' Hs) as [e' ->].
    now exists e'.
  - now exists e0.
Qed.

Lemma reduce_group_step_after_shadow (x y : string * AsyncItem)
      (rest : list (string * AsyncItem)) (acc : Obj (list AsyncItem)) :
  fst x = "hasOwnProperty" ->
  reduce_completion group_step (x :: y :: rest) acc =
  Throw (TypeError "acc.hasOwnProperty is not a function").
Proof.
  intros Hx. destruct (has_own "hasOwnProperty" acc) eqn:Ho.
  - now apply reduce_group_step_shadowed.
  - destruct x as [k it]. simpl in Hx. subst k.
    change (reduce_completion group_step (("hasOwnProperty", it) :: y :: rest) acc)
      with (cbind (group_step acc ("hasOwnProperty", it))
                  (reduce_completion group_step (y :: rest))).
    destruct (group_step acc ("hasOwnProperty", it)) as [acc'|e] eqn:G.
    + apply group_step_normal in G.
      destruct G as [_ [[Hk _]|[[_ [Hown _]]|[_ [_ ->]]]]];
        [discriminate|congruence|].
      simpl cbind. apply reduce_group_step_shadowed.
      rewrite has_own_app. simpl. now rewrite orb_true_r.
    + unfold group_step in G. rewrite Ho in G. simpl in G. discriminate.
Qed.

(** X6.  A package in a category called [hasOwnProperty] that is not the
    last package of its site makes the grouping fault -- the call
    [acc.hasOwnProperty(...)] then meets the array stored under that key --
    and with it the whole load is rejected. *)
Theorem site_node_hasOwnProperty_faults
        (w : World) (urls : list string) (u : string) (s : Site)
        (pre post : list SnarfSitePackageItem) (p q : SnarfSitePackageItem) :
  snarfURLs w = Some urls ->
  In u urls ->
  site_promise w u = Fulfilled s ->
  packages s = map Some (pre ++ p :: q :: post) ->
  category p = "hasOwnProperty" ->
  site_node w s = Throw (TypeError "acc.hasOwnProperty is not a function") /\
  exists e, snd (fetchData w) = Normal (Rejected e).
Proof.
  intros Hcfg Hin Hu Hp Hc.
  assert (Hs : site_node w s = Throw (TypeError "acc.hasOwnProperty is not a function")).
  { unfold site_node. rewrite Hp, makeItem_records. simpl cbind.
    rewrite map_app, reduce_completion_app.
    destruct (reduce_completion group_step _ []) as [acc|e] eqn:R.
    - change (cbind (cbind (Normal acc) ?f) ?g) with (cbind (f acc) g).
      change (map ?f (p :: q :: post)) with (f p :: f q :: map f post).
      now rewrite (reduce_group_step_after_shadow (category p, package_node p) _ _ acc Hc).
    - apply reduce_group_step_throw in R. now subst e. }
  split; [exact Hs|].
  exact (fetchData_site_node_throws w urls u s _ Hcfg Hin Hu Hs).
Qed.

Lemma site_node_hasOwnProperty_faults_witness :
  snd (fetchData shadowing_world) =
    Normal (Rejected (TypeError "acc.hasOwnProperty is not a function")).
Proof.
  destruct (site_node_hasOwnProperty_faults
              shadowing_world ["shadow"] "shadow"
              {| site_label := "shadow";
                 packages := [Some (sample_package "labs" "Lab1");
                              Some (sample_package "hasOwnProperty" "Lab2");
                              Some (sample_package "labs" "Lab3")] |}
              [sample_package "labs" "Lab1"] [] 
              (sample_package "hasOwnProperty" "Lab2") (sample_package "labs" "Lab3")
              eq_refl (or_introl eq_refl) eq_refl eq_refl eq_refl) as [_ [e He]].
  reflexivity.
Defined.

(** ** The order of the folders *)

Lemma first_seen_In (k : string) (ks : list string) :
  In k (first_seen ks) <-> In k ks.
Proof.
  induction ks as [|a ks IH]; simpl; [tauto|].
  rewrite filter_In, IH, negb_true_iff, String.eqb_neq.
  destruct (string_dec a k) as [->|Hne]; [tauto|].
  split; [tauto|]. intros [H|H]; [tauto|]. right. split; [exact H|congruence].
Qed.

Lemma first_seen_snoc (k : string) (ks : list string) :
  first_seen (ks ++ [k]) =
  first_seen ks ++ (if in_dec string_dec k ks then [] else [k]).
Proof.
  induction ks as [|a ks IH]; simpl; [reflexivity|].
  rewrite IH, filter_app. f_equal. f_equal.
  destruct (in_dec string_dec k ks) as [Hin|Hout]; simpl.
  - destruct (string_dec a k); reflexivity.
  - destruct (string_dec a k) as [->|Hne].
    + now rewrite String.eqb_refl.
    + assert (E : (k =? a)%string = false) by (apply String.eqb_neq; congruence).
      now rewrite E.
Qed.

(** The keys of the accumulator stand in the order in which the
    categories were first met. *)
Lemma reduce_group_step_keys (pairs : list (string * AsyncItem)) (items : Obj (list AsyncItem)) :
  Forall (fun pr => fst pr <> "__proto__") pairs ->
  reduce_completion group_step pairs [] = Normal items ->
  map fst items = first_seen (map fst pairs).
Proof.
  intros Hplain R.
  apply (reduce_completion_inv group_step
           (fun done acc => Forall (fun pr => fst pr <> "__proto__") done ->
                            map fst acc = first_seen (map fst done))
           ) with (done := []) (acc := []) (xs := pairs) (r := items);
    [|reflexivity|exact R|exact Hplain].
  intros done acc [k it] acc' IH Hstep Hdone.
  apply Forall_app in Hdone. destruct Hdone as [Hdone Hx].
  apply Forall_inv in Hx. simpl in Hx.
  specialize (IH Hdone).
  rewrite map_app. simpl. rewrite first_seen_snoc.
  apply group_step_normal in Hstep.
  destruct Hstep as [_ [[Hp _]|[[_ [Hown ->]]|[_ [Hown ->]]]]]; [now elim Hx| |].
  - rewrite push_at_keys, IH.
    apply (proj1 (has_own_In _ _)) in Hown. rewrite IH in Hown.
    apply (proj1 (first_seen_In _ _)) in Hown.
    destruct (in_dec string_dec k (map fst done)); [now rewrite app_nil_r|contradiction].
  - rewrite map_app, IH. simpl.
    destruct (in_dec string_dec k (map fst done)) as [Hin|Hout]; [|reflexivity].
    apply (proj2 (first_seen_In _ _)) in Hin. rewrite <- IH in Hin.
    apply (proj2 (has_own_In _ _)) in Hin. congruence.
Qed.

Lemma Object_entries_plain {V} (o : Obj V) :
  Forall (fun kv => is_index_entry kv = false) o -> Object_entries o = o.
Proof.
  intros H. unfold Object_entries.
  assert (E1 : filter is_index_entry o = []).
  { induction H as [|kv o Hkv HF IH]; simpl; [reflexivity|]. now rewrite Hkv. }
  assert (E2 : filter (fun kv => negb (is_index_entry kv)) o = o).
  { clear E1. induction H as [|kv o Hkv HF IH]; simpl; [reflexivity|].
    rewrite Hkv. simpl. f_equal. exact IH. }
  rewrite E1, E2. reflexivity.
Qed.

(** X7.  When no category of a site is a number (an array index) or one
    of the keys [__proto__] and [hasOwnProperty], the site node is built
    and its folders stand in the order in which their categories first
    occur among the packages. *)
Theorem site_node_first_seen_order
        (w : World) (s : Site) (pkgs : list SnarfSitePackageItem) :
  packages s = map Some pkgs ->
  forallb plain_category pkgs = true ->
  exists n, site_node w s = Normal n /\
            map label (children_of n) = first_seen (map category pkgs).
Proof.
  intros Hp Hplain. rewrite forallb_forall in Hplain.
  assert (Hcat : forall p, In p pkgs ->
                   is_index_key (category p) = false /\
                   category p <> "__proto__" /\ category p <> "hasOwnProperty").
  { intros p Hin. specialize (Hplain p Hin). unfold plain_category in Hplain.
    apply andb_true_iff in Hplain. destruct Hplain as [Hplain H3].
    apply andb_true_iff in Hplain. destruct Hplain as [H1 H2].
    apply negb_true_iff in H1, H2, H3.
    repeat split; [exact H1| |]; now apply String.eqb_neq. }
  set (pairs := map (fun p => (category p, package_node p)) pkgs).
  assert (Hpairs : forall pr, In pr pairs ->
                     is_index_key (fst pr) = false /\
                     fst pr <> "__proto__" /\ fst pr <> "hasOwnProperty").
  { intros pr Hin. apply in_map_iff in Hin. destruct Hin as [p [<- Hin]].
    simpl. now apply Hcat. }
  destruct (reduce_group_step_normal pairs) with (acc := @nil (string * list AsyncItem))
    as [items R]; [apply Forall_forall; intros pr H; now apply Hpairs|reflexivity|].
  exists (mkAsyncItem (site_label s) None None "project" None None
            (Some (map (category_node w) (Object_entries items)))).
  split.
  - unfold site_node. rewrite Hp, makeItem_records. simpl cbind. fold pairs.
    now rewrite R.
  - simpl children_of. rewrite map_map. simpl.
    assert (Hkeys : map fst items = first_seen (map fst pairs)).
    { apply reduce_group_step_keys; [|exact R].
      apply Forall_forall. intros pr H. now apply Hpairs. }
    rewrite Object_entries_plain.
    + change (map (fun x => fst x) items) with (map fst items).
      rewrite Hkeys. unfold pairs. now rewrite map_map.
    + apply Forall_forall. intros [k v] Hkv.
      assert (Hk : In k (map fst items)) by (apply in_map_iff; exists (k, v); auto).
      rewrite Hkeys in Hk. apply (proj1 (first_seen_In _ _)) in Hk.
      apply in_map_iff in Hk.
      destruct Hk as [pr [<- Hpr]]. now apply Hpairs.
Qed.

Lemma site_node_first_seen_order_witness :
  exists n,
    site_node sample_world (site_with_categories ["labs"; "hw"; "labs"; "exams"; "hw"])
      = Normal n /\
    map label (children_of n) = ["labs"; "hw"; "exams"].
Proof.
  apply (site_node_first_seen_order
           sample_world (site_with_categories ["labs"; "hw"; "labs"; "exams"; "hw"])
           (map (fun c => sample_package c c) ["labs"; "hw"; "labs"; "exams"; "hw"]));
    reflexivity.
Defined.

Lemma StronglySorted_map {A B} (f : A -> B) (R : B -> B -> Prop) (l : list A) :
  StronglySorted (fun a b => R (f a) (f b)) l -> StronglySorted R (map f l).
Proof.
  induction 1 as [|a l Hl IH Ha]; simpl; constructor; [exact IH|].
  apply Forall_forall. intros b Hb. apply in_map_iff in Hb.
  destruct Hb as [x [<- Hx]]. rewrite Forall_forall in Ha. now apply Ha.
Qed.

(** X8.  Among the folders of a site node those whose category is a
    number (an array index) come first, in ascending numeric order,
    whatever the order of the packages; the other folders follow. *)
Theorem site_node_index_categories_first (w : World) (s : Site) (n : AsyncItem) :
  site_node w s = Normal n ->
  exists idx rest,
    map label (children_of n) = idx ++ rest /\
    Forall (fun k => is_index_key k = true) idx /\
    Forall (fun k => is_index_key k = false) rest /\
    StronglySorted (fun a b => (key_index a <= key_index b)%N) idx.
Proof.
  intros Hn. destruct (site_node_inv w s n Hn) as [items [_ ->]].
  rewrite map_map. simpl. unfold Object_entries. rewrite map_app.
  eexists. eexists. split; [reflexivity|]. split; [|split].
  - apply Forall_forall. intros k Hk. apply in_map_iff in Hk.
    destruct Hk as [kv [<- Hkv]].
    apply (proj1 (Array_sort_In _ _ _)) in Hkv. apply filter_In in Hkv.
    exact (proj2 Hkv).
  - apply Forall_forall. intros k Hk. apply in_map_iff in Hk.
    destruct Hk as [kv [<- Hkv]]. apply filter_In in Hkv.
    destruct Hkv as [_ Hkv]. now apply negb_true_iff in Hkv.
  - apply (StronglySorted_map (fun kv : string * list AsyncItem => fst kv)
             (fun a b => (key_index a <= key_index b)%N)).
    apply (Array_sort_sorted
             (fun a b : string * list AsyncItem => (index_of_entry b <? index_of_entry a)%N)
             (fun a b => (index_of_entry a <= index_of_entry b)%N)).
    + intros x y H. apply N.ltb_ge in H. exact H.
    + intros x y H. apply N.ltb_lt in H. now apply N.lt_le_incl.
    + intros x y z. apply N.le_trans.
Qed.

Lemma site_node_index_categories_first_witness :
  exists n,
    site_node sample_world (site_with_categories ["labs"; "10"; "9"; "007"; "hw"]) = Normal n /\
    map label (children_of n) = ["9"; "10"; "labs"; "007"; "hw"] /\
    exists idx rest,
      map label (children_of n) = idx ++ rest /\
      Forall (fun k => is_index_key k = true) idx /\
      Forall (fun k => is_index_key k = false) rest /\
      StronglySorted (fun a b => (key_index a <= key_index b)%N) idx.
Proof.
  eexists. split; [reflexivity|]. split; [reflexivity|].
  apply (site_node_index_categories_first
           sample_world (site_with_categories ["labs"; "10"; "9"; "007"; "hw"])).
  reflexivity.
Defined.

(** ** The order in which the sites answer *)

Lemma site_promise_with_rank (w : World) (r : nat -> nat) (u : string) :
  site_promise (with_rank w r) u = site_promise w u.
Proof.
  rewrite !site_promise_eq. reflexivity.
Qed.

Lemma Promise_all_rejected_inv {A} (rank : nat -> nat) (ps : list (Promise A)) (e : Thrown) :
  Promise_all rank ps = Rejected e -> In (Rejected e) ps.
Proof.
  unfold Promise_all.
  destruct (first_rejection rank 0 ps None) as [[r0 e0]|] eqn:E; [|discriminate].
  intros H. inversion H; subst.
  destruct (first_rejection_some _ _ _ _ _ _ E) as [Hb|Hin]; [discriminate|exact Hin].
Qed.

(** X9.  The order in which the site promises settle does not matter to
    a load that fulfils: under any other order the load performs the same
    requests and fulfils with the same tree.  A load that is rejected is
    rejected under any order (only the reason may differ). *)
Theorem fetchData_settling_order (w : World) (r : nat -> nat) :
  (forall res, snd (fetchData w) = Normal (Fulfilled res) ->
               fetchData (with_rank w r) = fetchData w) /\
  (forall e, snd (fetchData w) = Normal (Rejected e) ->
             exists e', snd (fetchData (with_rank w r)) = Normal (Rejected e')).
Proof.
  destruct (snarfURLs w) as [urls|] eqn:Hcfg.
  - pose proof (fetchData_eq (with_rank w r) urls Hcfg) as E1.
    pose proof (fetchData_eq w urls Hcfg) as E2.
    rewrite (map_ext _ _ (site_promise_with_rank w r)) in E1.
    change (site_node (with_rank w r)) with (site_node w) in E1.
    change (settle_rank (with_rank w r)) with r in E1.
    rewrite E1, E2. simpl snd.
    destruct (Promise_all (settle_rank w) (map (site_promise w) urls)) as [sites|e0] eqn:E.
    + apply Promise_all_fulfilled_inv in E. rewrite E, Promise_all_fulfilled.
      split; [reflexivity|].
      intros e H. exists e. exact H.
    + apply Promise_all_rejected_inv in E.
      destruct (Promise_all_rejected r _ e0 E) as [e' [E' _]]. rewrite E'.
      split; [discriminate|]. intros e _. now exists e'.
  - unfold fetchData, async. simpl snarfURLs. rewrite Hcfg. simpl.
    split; [reflexivity|discriminate].
Qed.

(** ** The lifecycle hooks *)

(** X10.  The hooks set the two flags and nothing else.  After
    [beforeLoad] the view is neither loaded nor errored, after [afterLoad]
    it is loaded and not errored -- also when an error had been flagged
    before --, after [onLoadError] it is errored whatever the handler of
    the base class did; every other context key is left as it was (by
    [onLoadError]: as the base class left it), and [onLoadError] itself
    does not touch the loaded flag. *)
Theorem hooks_set_flags
        (super_onLoadError : Thrown -> ContextKeys -> ContextKeys)
        (e : Thrown) (c : ContextKeys) :
  (beforeLoad c "web-CAT.snarfsErrored" = Some false /\
   beforeLoad c "web-CAT.snarfsLoaded" = Some false) /\
  (afterLoad c "web-CAT.snarfsErrored" = Some false /\
   afterLoad c "web-CAT.snarfsLoaded" = Some true) /\
  (afterLoad (onLoadError super_onLoadError e c) "web-CAT.snarfsErrored" = Some false) /\
  (onLoadError super_onLoadError e c "web-CAT.snarfsErrored" = Some true /\
   onLoadError super_onLoadError e (beforeLoad c) "web-CAT.snarfsLoaded" =
     super_onLoadError e (beforeLoad c) "web-CAT.snarfsLoaded") /\
  (forall k, k <> "web-CAT.snarfsErrored" -> k <> "web-CAT.snarfsLoaded" ->
             beforeLoad c k = c k /\ afterLoad c k = c k /\
             onLoadError super_onLoadError e c k = super_onLoadError e c k).
Proof.
  repeat split; try reflexivity;
    unfold beforeLoad, afterLoad, onLoadError, setContext;
    apply String.eqb_neq in H, H0; now rewrite ?H, ?H0.
Qed.

Lemma fetchData_settling_order_witness :
  fetchData (with_rank sample_world (fun _ => 0)) = fetchData sample_world.
Proof.
  eapply (proj1 (fetchData_settling_order sample_world (fun _ => 0))).
  reflexivity.
Defined.

Lemma fetchData_fulfilled_iff_witness :
  exists nodes urls sites,
    snd (fetchData sample_world) = Normal (Fulfilled (Some nodes)) /\
    snarfURLs sample_world = Some urls /\
    Forall2 (fun u s => site_promise sample_world u = Fulfilled s) urls sites /\
    Forall2 (fun s n => site_node sample_world s = Normal n) sites nodes.
Proof.
  eexists.
  assert (H : snd (fetchData sample_world) = Normal (Fulfilled (Some ?[nodes])))
    by (vm_compute; reflexivity).
  destruct (proj1 (fetchData_fulfilled_iff sample_world _) H) as [urls [sites [H1 [H2 H3]]]].
  exists urls, sites. repeat split; assumption.
Defined.

(** ** The install, continued *)

(** X11.  Into a destination that does not exist yet the install extracts
    without asking: the overwrite question is never put, and when the
    download, the opening of the archive and the extraction succeed the
    install requests the archive, extracts it under [path.join(dir, name)]
    with concurrency 5 and reports the success naming the package. *)
Theorem snarfItem_fresh_destination
        (w : World) (item : AsyncItem) (p : SnarfSitePackageItem) (d : string) :
  workspace_dir w = Normal (Some d) ->
  d <> "" ->
  item_of item = Some p ->
  existsSync w (path_join w d (name p)) = false ->
  existsb is_prompt (fst (snarfItem w item)) = false /\
  (forall resp zipfile zip,
      fetch w (entry_url p) = Fulfilled resp ->
      buffer resp = Fulfilled zipfile ->
      unzip_Open_buffer w zipfile = Fulfilled zip ->
      extract w zip (path_join w d (name p)) = Fulfilled tt ->
      snarfItem w item =
      ([EProgress "snarferBrowser" "Snarfing..."; ETimer 1000; EFetch (entry_url p);
        EExtract (path_join w d (name p)) 5;
        EShowInfo ("Succesfully snarfed " ++ name p ++ ".")%string []],
       Normal tt)).
Proof.
  intros Hdir Hd Hitem Hex.
  rewrite (snarfItem_eq w item d Hdir Hd), Hitem. run_download. rewrite Hex. split.
  - repeat step_world; reflexivity.
  - intros resp zipfile zip Hf Hb Hz He.
    rewrite Hf. simpl. rewrite Hb. simpl. rewrite Hz. simpl. rewrite He. reflexivity.
Qed.

Lemma snarfItem_fresh_destination_witness :
  snarfItem fresh_world (sample_node "labs" "Lab1") =
    ([EProgress "snarferBrowser" "Snarfing..."; ETimer 1000;
      EFetch "https://example.org/Lab1.zip";
      EExtract "/home/me/ws/Lab1" 5;
      EShowInfo "Succesfully snarfed Lab1." []],
     Normal tt).
Proof.
  eapply (proj2 (snarfItem_fresh_destination
                   fresh_world (sample_node "labs" "Lab1") (sample_package "labs" "Lab1")
                   "/home/me/ws" eq_refl ltac:(discriminate) eq_refl eq_refl));
    reflexivity.
Defined.

(** X12.  Into a destination that exists the install, once the archive
    is downloaded and opened and the answer is Yes, extracts into that
    very directory and reports the success. *)
Theorem snarfItem_overwrite_confirmed
        (w : World) (item : AsyncItem) (p : SnarfSitePackageItem) (d : string)
        (resp : Response) (zipfile : list Byte.byte) (zip : CentralDirectory) :
  workspace_dir w = Normal (Some d) ->
  d <> "" ->
  item_of item = Some p ->
  existsSync w (path_join w d (name p)) = true ->
  answer w "Directory already exists. Overwrite?" ["Yes"; "No"] = Some "Yes" ->
  fetch w (entry_url p) = Fulfilled resp ->
  buffer resp = Fulfilled zipfile ->
  unzip_Open_buffer w zipfile = Fulfilled zip ->
  extract w zip (path_join w d (name p)) = Fulfilled tt ->
  snarfItem w item =
  ([EProgress "snarferBrowser" "Snarfing..."; ETimer 1000; EFetch (entry_url p);
    EShowInfo "Directory already exists. Overwrite?" ["Yes"; "No"];
    EExtract (path_join w d (name p)) 5;
    EShowInfo ("Succesfully snarfed " ++ name p ++ ".")%string []],
   Normal tt).
Proof.
  intros Hdir Hd Hitem Hex Hans Hf Hb Hz He.
  rewrite (snarfItem_eq w item d Hdir Hd), Hitem. run_download.
  rewrite Hf. simpl. rewrite Hb. simpl. rewrite Hz. simpl. rewrite Hex. simpl.
  unfold overwrite_question. rewrite Hans. simpl. rewrite He. reflexivity.
Qed.

Lemma snarfItem_overwrite_confirmed_witness :
  snarfItem sample_world (sample_node "labs" "Lab1") =
    ([EProgress "snarferBrowser" "Snarfing..."; ETimer 1000;
      EFetch "https://example.org/Lab1.zip";
      EShowInfo "Directory already exists. Overwrite?" ["Yes"; "No"];
      EExtract "/home/me/ws/Lab1" 5;
      EShowInfo "Succesfully snarfed Lab1." []],
     Normal tt).
Proof.
  eapply (snarfItem_overwrite_confirmed
            sample_world (sample_node "labs" "Lab1") (sample_package "labs" "Lab1")
            "/home/me/ws" _ _ _ eq_refl ltac:(discriminate) eq_refl eq_refl eq_refl);
    reflexivity.
Defined.

Lemma prefix_nil (s : string) : prefix "" s = true.
Proof.
  destruct s; reflexivity.
Qed.

(** X13.  The success message is shown exactly when an extraction was
    started and the download promise fulfilled; a failed or declined
    install never reports success. *)
Theorem snarfItem_success_report_iff
        (w : World) (item : AsyncItem) (p : SnarfSitePackageItem) (d : string) :
  workspace_dir w = Normal (Some d) ->
  d <> "" ->
  item_of item = Some p ->
  (existsb is_success_report (fst (snarfItem w item)) = true <->
   existsb is_fs_write (fst (snarfItem w item)) = true /\
   promise_of (downloadItem w d (Some p)) = Fulfilled tt).
Proof.
  intros Hdir Hd Hitem.
  rewrite (snarfItem_eq w item d Hdir Hd), Hitem. run_download.
  repeat step_world; rewrite ?prefix_nil;
    (split; [intros H; try discriminate H; split; reflexivity
           |intros [H1 H2]; try discriminate H1; try discriminate H2; reflexivity]).
Qed.

Lemma snarfItem_success_report_iff_witness :
  existsb is_success_report (fst (snarfItem corrupt_world (sample_node "labs" "Lab1"))) = false /\
  existsb is_success_report (fst (snarfItem fresh_world (sample_node "labs" "Lab1"))) = true.
Proof.
  split; [reflexivity|].
  apply (proj2 (snarfItem_success_report_iff
                  fresh_world (sample_node "labs" "Lab1") (sample_package "labs" "Lab1")
                  "/home/me/ws" eq_refl ltac:(discriminate) eq_refl)).
  split; reflexivity.
Defined.

(** X14.  An install of a package issues exactly one request, to the
    package's entry URL, and writes at most once, and then only under
    [path.join(dir, name)] with concurrency 5. *)
Theorem snarfItem_touches_only_destination
        (w : World) (item : AsyncItem) (p : SnarfSitePackageItem) (d : string) :
  workspace_dir w = Normal (Some d) ->
  d <> "" ->
  item_of item = Some p ->
  filter is_fetch (fst (snarfItem w item)) = [EFetch (entry_url p)] /\
  (filter is_fs_write (fst (snarfItem w item)) = [] \/
   filter is_fs_write (fst (snarfItem w item)) = [EExtract (path_join w d (name p)) 5]).
Proof.
  intros Hdir Hd Hitem.
  rewrite (snarfItem_eq w item d Hdir Hd), Hitem. run_download.
  repeat step_world; split; auto.
Qed.

Lemma snarfItem_touches_only_destination_witness :
  filter is_fetch (fst (snarfItem fresh_world (sample_node "labs" "Lab1"))) =
    [EFetch "https://example.org/Lab1.zip"] /\
  filter is_fs_write (fst (snarfItem fresh_world (sample_node "labs" "Lab1"))) =
    [EExtract "/home/me/ws/Lab1" 5].
Proof.
  destruct (snarfItem_touches_only_destination
              fresh_world (sample_node "labs" "Lab1") (sample_package "labs" "Lab1")
              "/home/me/ws" eq_refl ltac:(discriminate) eq_refl) as [H1 _].
  split; [exact H1|reflexivity].
Defined.

(** X15.  The guided no-op.  When no workspace has been opened (the
    folder list is [undefined]) or the first folder's path is empty, the
    install shows the one message asking to open a folder and does
    nothing else: no progress, no request, no write. *)
Theorem snarfItem_guided_noop (w : World) (item : AsyncItem) :
  workspaceFolders w = None \/
  (exists f fs, workspaceFolders w = Some (f :: fs) /\ fsPath f = "") ->
  snarfItem w item = ([EShowInfo "Please open a folder first." []], Normal tt).
Proof.
  intros [H|[f [fs [H Hf]]]]; unfold snarfItem, workspace_dir; rewrite H; simpl.
  - reflexivity.
  - rewrite Hf. reflexivity.
Qed.

Lemma snarfItem_guided_noop_witness :
  snarfItem (with_folders sample_world None) (sample_node "labs" "Lab1") =
    ([EShowInfo "Please open a folder first." []], Normal tt).
Proof.
  apply (snarfItem_guided_noop (with_folders sample_world None)).
  left. reflexivity.
Defined.

(** X16.  With at least one folder open the install returns normally
    whatever fails later, and only the first folder counts: the install
    does the same as with that folder alone. *)
Theorem snarfItem_first_folder_only
        (w : World) (item : AsyncItem) (f : WorkspaceFolder) (fs : list WorkspaceFolder) :
  workspaceFolders w = Some (f :: fs) ->
  snd (snarfItem w item) = Normal tt /\
  snarfItem w item = snarfItem (with_folders w (Some [f])) item.
Proof.
  intros H. split.
  - destruct (string_dec (fsPath f) "") as [Hf|Hf].
    + unfold snarfItem, workspace_dir. rewrite H. simpl. rewrite Hf. reflexivity.
    + rewrite (snarfItem_eq w item (fsPath f)); [reflexivity| |exact Hf].
      unfold workspace_dir. now rewrite H.
  - unfold snarfItem, workspace_dir. rewrite H. reflexivity.
Qed.

Lemma snarfItem_first_folder_only_witness :
  snd (snarfItem fresh_world (sample_node "labs" "Lab1")) = Normal tt /\
  snarfItem fresh_world (sample_node "labs" "Lab1") =
  snarfItem (with_folders fresh_world (Some [{| fsPath := "/home/me/ws" |}]))
            (sample_node "labs" "Lab1").
Proof.
  apply (snarfItem_first_folder_only fresh_world (sample_node "labs" "Lab1")
           {| fsPath := "/home/me/ws" |} [{| fsPath := "/home/me/other" |}]).
  reflexivity.
Defined.

(** X17.  The timer only gates the progress display: in whatever order
    the timer and the download settle, the install does the same. *)
Theorem snarfItem_settling_order (w : World) (r : nat -> nat) (item : AsyncItem) :
  snarfItem (with_rank w r) item = snarfItem w item.
Proof.
  destruct (workspace_dir w) as [[d|]|e] eqn:Hdir.
  - destruct (string_dec d "") as [->|Hd].
    + unfold snarfItem.
      change (workspace_dir (with_rank w r)) with (workspace_dir w).
      rewrite Hdir. reflexivity.
    + rewrite (snarfItem_eq (with_rank w r) item d Hdir Hd).
      rewrite (snarfItem_eq w item d Hdir Hd). reflexivity.
  - unfold snarfItem.
    change (workspace_dir (with_rank w r)) with (workspace_dir w).
    rewrite Hdir. reflexivity.
  - unfold snarfItem.
    change (workspace_dir (with_rank w r)) with (workspace_dir w).
    rewrite Hdir. reflexivity.
Qed.

(** X18.  Invoked on a node that carries no package record (a site or a
    folder node), the install faults on [pack.entry] inside the download:
    it shows the progress and sets the timer, but issues no request,
    writes nothing and shows no message; the rejection is dropped. *)
Theorem snarfItem_without_record (w : World) (item : AsyncItem) (d : string) :
  workspace_dir w = Normal (Some d) ->
  d <> "" ->
  item_of item = None ->
  snarfItem w item =
  ([EProgress "snarferBrowser" "Snarfing..."; ETimer 1000;
    ERejectionDropped (TypeError "Cannot read properties of undefined (reading 'entry')")],
   Normal tt).
Proof.
  intros Hdir Hd Hitem. rewrite (snarfItem_eq w item d Hdir Hd), Hitem. reflexivity.
Qed.

Lemma snarfItem_without_record_witness :
  snarfItem sample_world (mkAsyncItem "labs" None None "folder" None None (Some [])) =
  ([EProgress "snarferBrowser" "Snarfing..."; ETimer 1000;
    ERejectionDropped (TypeError "Cannot read properties of undefined (reading 'entry')")],
   Normal tt).
Proof.
  apply (snarfItem_without_record sample_world _ "/home/me/ws" eq_refl);
    [discriminate|reflexivity].
Defined.

(** ** The contents of a folder *)

Lemma push_at_In_nodup (k k' : string) (v' : list AsyncItem) (it : AsyncItem)
      (o : Obj (list AsyncItem)) :
  NoDup (map fst o) ->
  In (k', v') (push_at k it o) ->
  (k' <> k /\ In (k', v') o) \/
  (k' = k /\ exists v0, In (k, v0) o /\ v' = v0 ++ [it]).
Proof.
  induction o as [|[k0 v0] o IH]; simpl; [tauto|].
  intros Hnd. inversion Hnd as [|? ? Hfresh Hnd']; subst.
  destruct (k0 =? k)%string eqn:E; simpl.
  - apply String.eqb_eq in E. subst k0. intros [H|H].
    + inversion H; subst. right. split; [reflexivity|]. exists v0. auto.
    + left. split; [|auto]. intros ->. apply Hfresh.
      apply in_map_iff. exists (k, v'). auto.
  - apply String.eqb_neq in E. intros [H|H].
    + inversion H; subst. left. auto.
    + destruct (IH Hnd' H) as [[Hne Hin]|[-> [v1 [Hin ->]]]].
      * left. auto.
      * right. split; [reflexivity|]. exists v1. auto.
Qed.

(** Under every key the accumulator holds the nodes of the pairs of that
    key, in the order in which they came. *)
Lemma group_step_contents (done : list (string * AsyncItem)) (acc acc' : Obj (list AsyncItem))
      (x : string * AsyncItem) :
  (grouped done acc /\
   forall k v, In (k, v) acc ->
               v = map snd (filter (fun pr => (fst pr =? k)%string) done)) ->
  group_step acc x = Normal acc' ->
  grouped (done ++ [x]) acc' /\
  forall k v, In (k, v) acc' ->
              v = map snd (filter (fun pr => (fst pr =? k)%string) (done ++ [x])).
Proof.
  intros [Hg Hc] Hstep. split; [now apply (group_step_grouped done acc acc' x)|].
  destruct x as [k0 it]. intros k v Hkv. rewrite filter_snoc. simpl.
  assert (Hproto : forall v1, In (k, v1) acc -> k <> "__proto__").
  { intros v1 H1. destruct Hg as [_ [_ [_ [Hkeys _]]]].
    assert (Hk : In k (map fst acc)) by (apply in_map_iff; exists (k, v1); auto).
    now apply Hkeys in Hk. }
  apply group_step_normal in Hstep.
  destruct Hstep as [_ [[-> ->]|[[Hk [Hown ->]]|[Hk [Hown ->]]]]].
  - assert (E : ("__proto__" =? k)%string = false).
    { apply String.eqb_neq. intros <-. now apply (Hproto v Hkv). }
    rewrite E, app_nil_r. now apply Hc.
  - destruct Hg as [Hnd _].
    destruct (push_at_In_nodup k0 k v it acc Hnd Hkv) as [[Hne Hin]|[-> [v0 [Hin ->]]]].
    + assert (E : (k0 =? k)%string = false) by (apply String.eqb_neq; congruence).
      rewrite E, app_nil_r. now apply Hc.
    + rewrite String.eqb_refl, map_app. simpl. f_equal. now apply Hc.
  - apply in_app_iff in Hkv. destruct Hkv as [Hin|[Hin|[]]].
    + assert (E : (k0 =? k)%string = false).
      { apply String.eqb_neq. intros ->.
        assert (Hk' : In k (map fst acc)) by (apply in_map_iff; exists (k, v); auto).
        apply (proj2 (has_own_In _ _)) in Hk'. congruence. }
      rewrite E, app_nil_r. now apply Hc.
    + inversion Hin; subst. rewrite String.eqb_refl, map_app. simpl.
      assert (E : map snd (filter (fun pr => (fst pr =? k)%string) done) = []).
      { destruct (filter (fun pr => (fst pr =? k)%string) done) as [|pr l] eqn:F;
          [reflexivity|].
        assert (Hpr : In pr (filter (fun pr => (fst pr =? k)%string) done))
          by (rewrite F; now left).
        apply filter_In in Hpr. destruct Hpr as [Hpr Ek]. apply String.eqb_eq in Ek.
        destruct Hg as [_ [_ [_ [Hkeys _]]]].
        assert (Hk' : In k (map fst acc)).
        { apply Hkeys. split; [|exact Hk]. apply in_map_iff. exists pr. auto. }
        apply (proj2 (has_own_In _ _)) in Hk'. congruence. }
      now rewrite E.
Qed.

Lemma filter_category (k : string) (pkgs : list SnarfSitePackageItem) :
  map snd (filter (fun pr => (fst pr =? k)%string)
                  (map (fun p => (category p, package_node p)) pkgs)) =
  map package_node (filter (fun p => (category p =? k)%string) pkgs).
Proof.
  induction pkgs as [|p pkgs IH]; simpl; [reflexivity|].
  destruct (category p =? k)%string; simpl; congruence.
Qed.

(** X19.  A folder holds exactly the nodes of the site's packages of its
    category: they are pushed in the order of the manifest and then
    sorted by [localeCompare] of their labels, so that packages the
    comparator does not tell apart stay in the order of the manifest. *)
Theorem site_node_folder_contents
        (w : World) (s : Site) (n folder : AsyncItem) (pkgs : list SnarfSitePackageItem) :
  packages s = map Some pkgs ->
  site_node w s = Normal n ->
  In folder (children_of n) ->
  children_of folder =
  Array_sort (fun a b => (0 <? localeCompare w (label a) (label b))%Z)
             (map package_node
                  (filter (fun p => (category p =? label folder)%string) pkgs)).
Proof.
  intros Hp Hn Hf. revert Hn. unfold site_node. rewrite Hp, makeItem_records. simpl cbind.
  destruct (reduce_completion group_step _ []) as [items|e] eqn:R; simpl; [|discriminate].
  intros H. inversion H; subst. simpl in Hf. apply in_map_iff in Hf.
  destruct Hf as [[k v] [<- Hkv]]. apply (proj1 (Object_entries_In _ _)) in Hkv.
  simpl. f_equal. rewrite <- filter_category.
  pose proof (reduce_completion_inv group_step
                (fun done acc =>
                   grouped done acc /\
                   forall k v, In (k, v) acc ->
                               v = map snd (filter (fun pr => (fst pr =? k)%string) done))
                (fun done acc x acc' => group_step_contents done acc acc' x)
                (map (fun p => (category p, package_node p)) pkgs) [] [] items) as Hinv.
  simpl in Hinv. destruct Hinv as [_ Hc]; [|exact R|now apply Hc].
  split; [exact grouped_empty|]. intros k0 v0 [].
Qed.

Lemma site_node_folder_contents_witness :
  exists n,
    site_node sample_world many_site = Normal n /\
    map (fun folder => (label folder, map label (children_of folder))) (children_of n) =
      [("labs", ["Banana"; "cherry"]); ("hw", ["HW1"])] /\
    forall folder, In folder (children_of n) ->
      children_of folder =
      Array_sort (fun a b => (0 <? localeCompare sample_world (label a) (label b))%Z)
                 (map package_node
                      (filter (fun p => (category p =? label folder)%string)
                              [sample_package "labs" "cherry"; sample_package "hw" "HW1";
                               sample_package "labs" "Banana"])).
Proof.
  eexists. split; [reflexivity|]. split; [reflexivity|]. intros folder Hf.
  exact (site_node_folder_contents sample_world many_site _ folder
           [sample_package "labs" "cherry"; sample_package "hw" "HW1";
            sample_package "labs" "Banana"] eq_refl eq_refl Hf).
Defined.

(** ** The tree of a fulfilled load *)

Lemma makeItem_all_records (xs : list (option SnarfSitePackageItem))
      (pairs : list (string * AsyncItem)) :
  map_completion makeItem xs = Normal pairs -> exists pkgs, xs = map Some pkgs.
Proof.
  revert pairs. induction xs as [|x xs IH]; intros pairs H.
  - now exists [].
  - simpl in H. destruct x as [p|]; simpl in H; [|discriminate].
    destruct (map_completion makeItem xs) as [pairs'|e]; simpl in H; [|discriminate].
    destruct (IH pairs' eq_refl) as [pkgs ->]. now exists (p :: pkgs).
Qed.

(** A site node that was built: the site's packages are all records, the
    folders are the entries of a well-grouped accumulator, and under
    every key stand the nodes of the packages of that category, in the
    order of the manifest. *)
Lemma site_node_structure (w : World) (s : Site) (n : AsyncItem) :
  site_node w s = Normal n ->
  exists pkgs items,
    packages s = map Some pkgs /\
    children_of n = map (category_node w) (Object_entries items) /\
    grouped (map (fun p => (category p, package_node p)) pkgs) items /\
    forall k v, In (k, v) items ->
                v = map package_node (filter (fun p => (category p =? k)%string) pkgs).
Proof.
  intros Hn.
  assert (Hpk : exists pkgs, packages s = map Some pkgs).
  { unfold site_node in Hn.
    destruct (map_completion makeItem (packages s)) as [pairs|e] eqn:E;
      [|discriminate].
    now apply (makeItem_all_records _ pairs). }
  destruct Hpk as [pkgs Hp]. exists pkgs.
  revert Hn. unfold site_node. rewrite Hp, makeItem_records. simpl cbind.
  destruct (reduce_completion group_step _ []) as [items|e] eqn:R; simpl; [|discriminate].
  intros H. inversion H; subst. exists items.
  pose proof (reduce_completion_inv group_step
                (fun done acc =>
                   grouped done acc /\
                   forall k v, In (k, v) acc ->
                               v = map snd (filter (fun pr => (fst pr =? k)%string) done))
                (fun done acc x acc' => group_step_contents done acc acc' x)
                (map (fun p => (category p, package_node p)) pkgs) [] [] items) as Hinv.
  simpl in Hinv. destruct Hinv as [Hg Hc]; [|exact R|].
  - split; [exact grouped_empty|]. intros k0 v0 [].
  - split; [reflexivity|]. split; [reflexivity|]. split; [exact Hg|].
    intros k v Hkv. rewrite <- filter_category. now apply Hc.
Qed.

(** The nodes of a fulfilled load are the site nodes of the sites fetched
    from the configured URLs. *)
Lemma fetchData_nodes_sites (w : World) (nodes : list AsyncItem) (site : AsyncItem) :
  snd (fetchData w) = Normal (Fulfilled (Some nodes)) ->
  In site nodes ->
  exists urls u s,
    snarfURLs w = Some urls /\ In u urls /\
    site_promise w u = Fulfilled s /\ site_node w s = Normal site.
Proof.
  intros H Hin. destruct (snarfURLs w) as [urls|] eqn:Hcfg.
  - rewrite (fetchData_eq w urls Hcfg) in H. simpl in H.
    destruct (Promise_all (settle_rank w) (map (site_promise w) urls)) as [sites|e] eqn:E;
      [|discriminate].
    destruct (map_completion (site_node w) sites) as [nodes'|e] eqn:En; [|discriminate].
    inversion H; subst. apply map_completion_inv in En.
    destruct (Forall2_In_r _ _ _ _ En Hin) as [s [Hs Hsite]].
    apply Promise_all_fulfilled_inv, Forall2_of_map_fulfilled in E.
    destruct (Forall2_In_r _ _ _ _ E Hs) as [u [Hu Hus]].
    exists urls, u, s. auto.
  - unfold fetchData, async in H. rewrite Hcfg in H. discriminate.
Qed.

(** C6.  In the tree of a fulfilled load every site node is the node of
    a site fetched from a configured URL, and under it the packages of
    that site are filed by category: every package (outside the category
    [__proto__]) has its node among the children of the folder labelled
    with its category; every folder has children, all of them nodes of
    packages of the site whose category is the folder's label (the node's
    label being the package's name), namely all the packages of that
    category; and the children of a folder are in ascending order of
    their labels under [localeCompare], taken to be a consistent
    comparator. *)
Theorem fetchData_categories_sorted (w : World) (nodes : list AsyncItem) :
  (forall a b, (0 < localeCompare w a b)%Z -> (localeCompare w b a <= 0)%Z) ->
  (forall a b c, (localeCompare w a b <= 0)%Z -> (localeCompare w b c <= 0)%Z ->
                 (localeCompare w a c <= 0)%Z) ->
  snd (fetchData w) = Normal (Fulfilled (Some nodes)) ->
  forall site,
    In site nodes ->
    exists urls u s pkgs,
      snarfURLs w = Some urls /\ In u urls /\
      site_promise w u = Fulfilled s /\
      packages s = map Some pkgs /\
      site_node w s = Normal site /\
      (forall p, In p pkgs -> category p <> "__proto__" ->
                 exists cat, In cat (children_of site) /\
                             label cat = category p /\
                             In (package_node p) (children_of cat)) /\
      (forall cat, In cat (children_of site) ->
         children_of cat <> [] /\
         (forall pkg, In pkg (children_of cat) ->
                      exists p, In p pkgs /\
                                pkg = package_node p /\
                                item_of pkg = Some p /\
                                category p = label cat /\
                                label pkg = name p) /\
         Permutation (children_of cat)
                     (map package_node
                          (filter (fun p => (category p =? label cat)%string) pkgs)) /\
         StronglySorted (fun a b => (localeCompare w (label a) (label b) <= 0)%Z)
                        (children_of cat)).
Proof.
  intros Htotal Htrans Hload site Hsite.
  destruct (fetchData_nodes_sites w nodes site Hload Hsite) as [urls [u [s [Hcfg [Hu [Hus Hs]]]]]].
  destruct (site_node_structure w s site Hs)
    as [pkgs [items [Hp [Hchildren [[_ [_ [Hne [Hkeys _]]]] Hcontents]]]]].
  exists urls, u, s, pkgs.
  split; [exact Hcfg|]. split; [exact Hu|]. split; [exact Hus|].
  split; [exact Hp|]. split; [exact Hs|]. rewrite Hchildren. split.
  - intros p Hin Hproto.
    assert (Hk : In (category p) (map fst items)).
    { apply Hkeys. split; [|exact Hproto].
      rewrite map_map. simpl. now apply in_map. }
    apply in_map_iff in Hk. destruct Hk as [[k v] [Ek Hkv]]. simpl in Ek. subst k.
    exists (category_node w (category p, v)). split; [|split].
    + apply in_map. now apply Object_entries_In.
    + reflexivity.
    + simpl. apply Array_sort_In. rewrite (Hcontents _ _ Hkv).
      apply in_map. apply filter_In. split; [exact Hin|apply String.eqb_refl].
  - intros cat Hcat. apply in_map_iff in Hcat.
    destruct Hcat as [[k v] [<- Hkv]]. apply (proj1 (Object_entries_In _ _)) in Hkv.
    simpl. split; [|split; [|split]].
    + rewrite Forall_forall in Hne. specialize (Hne (k, v) Hkv). simpl in Hne.
      intros E. apply Hne. apply Permutation_nil. rewrite <- E. apply Array_sort_perm.
    + intros pkg Hpkg. apply (proj1 (Array_sort_In _ _ _)) in Hpkg.
      rewrite (Hcontents _ _ Hkv) in Hpkg. apply in_map_iff in Hpkg.
      destruct Hpkg as [p [<- Hp']]. apply filter_In in Hp'. destruct Hp' as [Hin Ek].
      apply String.eqb_eq in Ek. exists p. auto.
    + rewrite <- (Hcontents _ _ Hkv). apply Array_sort_perm.
    + apply Array_sort_sorted.
      * intros x y H. apply Z.ltb_ge in H. exact H.
      * intros x y H. apply Z.ltb_lt in H. now apply Htotal.
      * intros x y z. apply Htrans.
Qed.

Lemma fetchData_categories_sorted_witness :
  exists nodes,
    snd (fetchData sample_world) = Normal (Fulfilled (Some nodes)) /\
    map (fun site =>
           (label site,
            map (fun folder => (label folder, map label (children_of folder)))
                (children_of site))) nodes =
      [("many", [("labs", ["Banana"; "cherry"]); ("hw", ["HW1"])]);
       ("one", [("labs", ["Lab1"])])] /\
    forall site,
      In site nodes ->
      exists urls u s pkgs,
        snarfURLs sample_world = Some urls /\ In u urls /\
        site_promise sample_world u = Fulfilled s /\
        packages s = map Some pkgs /\
        site_node sample_world s = Normal site /\
        (forall p, In p pkgs -> category p <> "__proto__" ->
                   exists cat, In cat (children_of site) /\
                               label cat = category p /\
                               In (package_node p) (children_of cat)) /\
        (forall cat, In cat (children_of site) ->
           children_of cat <> [] /\
           (forall pkg, In pkg (children_of cat) ->
                        exists p, In p pkgs /\
                                  pkg = package_node p /\
                                  item_of pkg = Some p /\
                                  category p = label cat /\
                                  label pkg = name p) /\
           Permutation (children_of cat)
                       (map package_node
                            (filter (fun p => (category p =? label cat)%string) pkgs)) /\
           StronglySorted
             (fun a b => (localeCompare sample_world (label a) (label b) <= 0)%Z)
             (children_of cat)).
Proof.
  eexists. split; [vm_compute; reflexivity|]. split; [reflexivity|].
  apply (fetchData_categories_sorted sample_world _
           codepoint_compare_total codepoint_compare_trans eq_refl).
Defined.
